(** * Duplicate name detection: a shallow embedding of the notebook

    The development follows [Duplicate_name_detection.ipynb] cell by cell:
    the normalizer [preprocess_name], the scorer [get_similarity_score],
    the blocking function [block_names], the chunk comparator
    [process_chunk], the two merging stages and the consolidation loop.

    Conventions.
    - A Python [str] is a [string]; a character is read as a code point
      below 256, so [strip] and [lower] are Python's on that range.
    - A Python [float] is an exact rational of [Q]; no statement below
      depends on rounding.
    - A [defaultdict(list)] is an association list in insertion order with
      pairwise distinct keys, since the consolidation loop iterates it in
      that order.
    - A raised exception is the [Raise] case of [result].
    - The four [jellyfish] primitives are not part of the repository; they
      are the variables of [Section Scorer]. *)

From Stdlib Require Import Ascii String QArith Qabs DecimalString Lqa.
From stdpp Require Import base tactics option list strings gmap sets sorting.

Close Scope Q_scope.
Open Scope string_scope.
Open Scope nat_scope.
Open Scope list_scope.
Open Scope stdpp_scope.

(** ** Exceptions *)

Inductive exn := ZeroDivisionError | ValueError.

Inductive result (A : Type) : Type :=
| Ok (a : A)
| Raise (e : exn).
Arguments Ok {A} a.
Arguments Raise {A} e.

Definition result_bind {A B} (m : result A) (k : A → result B) : result B :=
  match m with
  | Ok a => k a
  | Raise e => Raise e
  end.

Notation "x ←! m ; k" := (result_bind m (λ x, k))
  (at level 20, m at level 100, k at level 200, right associativity,
   format "x  ←!  m ;  '/' k").

(** A loop whose body may raise: the first exception stops it. *)
Fixpoint foldM {S X} (f : S → X → result S) (xs : list X) (s : S) : result S :=
  match xs with
  | [] => Ok s
  | x :: xs' => s' ←! f s x; foldM f xs' s'
  end.

(** Results of a list of tasks, read in submission order. *)
Fixpoint mapM {X Y} (f : X → result Y) (xs : list X) : result (list Y) :=
  match xs with
  | [] => Ok []
  | x :: xs' => y ←! f x; ys ←! mapM f xs'; Ok (y :: ys)
  end.

(** ** Python strings *)

Module Py.

Definition code (c : ascii) : N := N_of_ascii c.

(** [str.isspace] on one character. *)
Definition is_space (c : ascii) : bool :=
  let n := code c in
  ((9 <=? n) && (n <=? 13) || (28 <=? n) && (n <=? 32)
   || (n =? 133) || (n =? 160))%N.

Definition is_upper (c : ascii) : bool :=
  let n := code c in
  ((65 <=? n) && (n <=? 90)
   || (192 <=? n) && (n <=? 222) && negb (n =? 215))%N.

(** [str.lower] on one character with a code point below 256, where it
    maps one character to one character. On other characters Python's
    [str.lower] can give two characters (U+0130) or leave an upper-case
    one (U+03D2): the length and the case of a lowered string are not
    part of this model. *)
Definition lower_char (c : ascii) : ascii :=
  if is_upper c then ascii_of_N (code c + 32) else c.

Fixpoint lower (s : string) : string :=
  match s with
  | "" => ""
  | String c s' => String (lower_char c) (lower s')
  end.

Fixpoint lstrip (s : string) : string :=
  match s with
  | "" => ""
  | String c s' => if is_space c then lstrip s' else s
  end.

Fixpoint rstrip (s : string) : string :=
  match s with
  | "" => ""
  | String c s' =>
      match rstrip s' with
      | "" => if is_space c then "" else String c ""
      | r => String c r
      end
  end.

Definition strip (s : string) : string := rstrip (lstrip s).

(** [s.split(sep)[0]]: the part of [s] before the first [sep]. *)
Fixpoint split_head (sep s : string) : string :=
  match s with
  | "" => ""
  | String c s' =>
      if String.prefix sep s then "" else String c (split_head sep s')
  end.

(** [x / y] on two [int]s. *)
Definition truediv (x y : nat) : result Q :=
  match y with
  | O => Raise ZeroDivisionError
  | S _ => Ok (Z.of_nat x # Pos.of_nat y)%Q
  end.

Definition of_bool (b : bool) : Q := if b then 1%Q else 0%Q.

(** [x < y] on two [float]s. *)
Definition ltb (x y : Q) : bool :=
  (Qnum x * Z.pos (Qden y) <? Qnum y * Z.pos (Qden x))%Z.

(** Nearest integer to a non-negative rational, ties to even. *)
Definition round_half_even (q : Q) : Z :=
  let n := Qnum q in
  let d := Z.pos (Qden q) in
  let fl := (n / d)%Z in
  match (2 * (n mod d) ?= d)%Z with
  | Lt => fl
  | Gt => (fl + 1)%Z
  | Eq => if Z.even fl then fl else (fl + 1)%Z
  end.

Definition digit (z : Z) : ascii := ascii_of_N (48 + Z.to_N z).

Definition dec (z : Z) : string :=
  NilZero.string_of_uint (N.to_uint (Z.to_N z)).

(** [f"{q:.2f}"]. *)
Definition format_2f (q : Q) : string :=
  let h := round_half_even (Qabs q * 100) in
  (if ltb q 0 then "-" else "")
    +:+ dec (h / 100) +:+ "."
    +:+ String (digit ((h / 10) mod 10)) (String (digit (h mod 10)) "").

End Py.

(** ** Values handed to the normalizer *)

Inductive value :=
| VStr (s : string)
| VNone
| VInt (z : Z)
| VFloat (q : Q)
| VNaN.

(** ** Normalizer (notebook lines 53-54) *)

Definition preprocess_name (name : value) : string :=
match name with
| VStr s => Py.lower (Py.strip s)
| _ => ""
end.

(** ** [defaultdict(list)] in insertion order *)

Section Defaultdict.

Context {K V : Type} `{EqDecision K}.

(** [d[k]] when [k] is a key. *)
Fixpoint dd_lookup (k : K) (d : list (K * list V)) : option (list V) :=
  match d with
  | [] => None
  | (k', l) :: d' => if decide (k = k') then Some l else dd_lookup k d'
  end.

(** [d[k].extend(vs)]: a missing key is inserted last, with [vs]. *)
Fixpoint dd_extend (k : K) (vs : list V) (d : list (K * list V))
  : list (K * list V) :=
  match d with
  | [] => [(k, vs)]
  | (k', l) :: d' =>
      if decide (k = k') then (k', l ++ vs) :: d'
      else (k', l) :: dd_extend k vs d'
  end.

(** [d[k].append(v)]. *)
Definition dd_append (k : K) (v : V) (d : list (K * list V))
  : list (K * list V) :=
  dd_extend k [v] d.

(** [for key, value in result.items(): d[key].extend(value)]. *)
Definition merge_result (d result : list (K * list V)) : list (K * list V) :=
  fold_left (λ acc kv, dd_extend kv.1 kv.2 acc) result d.

Definition dd_keys (d : list (K * list V)) : list K := fst <$> d.
Definition dd_values (d : list (K * list V)) : list (list V) := snd <$> d.

End Defaultdict.

(** ** Blocking (lines 144-149) *)

Definition first_letter (name : string) : string :=
  match name with
  | "" => ""
  | String c _ => String c ""
  end.

Definition block_names (names : list string) : list (string * list string) :=
  fold_left (λ blocks name, dd_append (first_letter name) name blocks)
            names [].

(** ** Chunking (lines 237-238) *)

(** The values of [range(i, stop, step)] for a positive [step]; [fuel]
    bounds the number of iterations. *)
Fixpoint range_loop (fuel i stop step : nat) : list nat :=
  match fuel with
  | O => []
  | S fuel' =>
      if decide (i < stop) then i :: range_loop fuel' (i + step) stop step
      else []
  end.

(** [range(0, stop, step)] for [stop >= 0]. *)
Definition py_range (stop : nat) (step : Z) : result (list nat) :=
  if decide (step = 0)%Z then Raise ValueError
  else if decide (step < 0)%Z then Ok []
  else Ok (range_loop stop 0 stop (Z.to_nat step)).

(** [l[i:j]] for [0 <= i <= j]. *)
Definition slice {A} (l : list A) (i j : nat) : list A :=
  take (j - i) (drop i l).

Definition block_chunks (names : list string) (chunk_size : Z)
  : result (list (list string)) :=
  starts ←! py_range (length names) chunk_size;
  Ok ((λ i, slice names i (i + Z.to_nat chunk_size)) <$> starts).

(** [itertools.combinations(l, 2)]. *)
Fixpoint combinations2 {A} (l : list A) : list (A * A) :=
  match l with
  | [] => []
  | x :: l' => (pair x <$> l') ++ combinations2 l'
  end.

(** [f"{name} ({score:.2f})"]. *)
Definition match_record (name : string) (score : Q) : string :=
  name +:+ " (" +:+ Py.format_2f score +:+ ")".

(** Lines 181-184: the smaller name first. *)
Definition order_pair (name1 name2 : string) : string * string :=
  if String.ltb name2 name1 then (name2, name1) else (name1, name2).

(** ** Similarity scorer (lines 77-96) *)

Section Scorer.

Variables soundex metaphone : string → string.
Variable levenshtein_distance : string → string → nat.
Variable jaro_winkler_similarity : string → string → Q.

Definition get_similarity_score (name1 name2 : value) : result Q :=
  let name1 := preprocess_name name1 in
  let name2 := preprocess_name name2 in
  let soundex_score := bool_decide (soundex name1 = soundex name2) in
  let metaphone_score := bool_decide (metaphone name1 = metaphone name2) in
  let levenshtein_score := levenshtein_distance name1 name2 in
  let jaro_winkler_score := jaro_winkler_similarity name1 name2 in
  ratio ←! Py.truediv levenshtein_score
             (String.length name1 `max` String.length name2);
  Ok (Py.of_bool soundex_score * (2 # 10)
      + Py.of_bool metaphone_score * (2 # 10)
      + (1 - ratio) * (3 # 10)
      + jaro_winkler_score * (3 # 10))%Q.

(** ** Chunk comparator (lines 175-193) *)

(** The loop state: [potential_duplicates] and [seen_pairs]. *)
Definition chunk_state : Type :=
  list (string * list string) * gset (string * string).

(** One iteration of the loop of lines 179-191. *)
Definition process_pair (threshold : Q) (st : chunk_state)
    (p : string * string) : result chunk_state :=
  let '(potential_duplicates, seen_pairs) := st in
  let '(name1, name2) := order_pair p.1 p.2 in
  if decide ((name1, name2) ∈ seen_pairs) then Ok st
  else
    score ←! get_similarity_score (VStr name1) (VStr name2);
    let potential_duplicates :=
      if Py.ltb threshold score && Py.ltb score 1
      then dd_append name2 (match_record name1 score)
             (dd_append name1 (match_record name2 score)
                potential_duplicates)
      else potential_duplicates in
    Ok (potential_duplicates, {[ (name1, name2) ]} ∪ seen_pairs).

Definition process_chunk_loop (chunk : list string) (threshold : Q)
  : result chunk_state :=
  foldM (process_pair threshold) (combinations2 chunk) ([], ∅).

Definition process_chunk (chunk : list string) (threshold : Q)
  : result (list (string * list string)) :=
  st ←! process_chunk_loop chunk threshold; Ok st.1.

(** ** Orchestrator (lines 233-246 and 271-280)

    Futures are read in submission order, so both merges are
    deterministic and the first exception in that order is the one
    raised. *)

Definition process_block_with_threads (names : list string) (threshold : Q)
    (chunk_size : Z) : result (list (string * list string)) :=
  chunks ←! block_chunks names chunk_size;
  results ←! mapM (λ chunk, process_chunk chunk threshold) chunks;
  Ok (fold_left merge_result results []).

Definition default_threshold : Q := (8 # 10)%Q.
Definition default_chunk_size : Z := 1000.

Definition all_potential_duplicates
    (blocked_org_members : list (string * list string))
  : result (list (string * list string)) :=
  results ←! mapM (λ names, process_block_with_threads names
                              default_threshold default_chunk_size)
                  (dd_values blocked_org_members);
  Ok (fold_left merge_result results []).

End Scorer.

(** ** Cluster consolidation (lines 306-314 and 326) *)

(** [sorted(l, key=key)]: a stable sort, written as insertion sort. *)
Fixpoint insert_by {A} (key : A → string) (x : A) (l : list A) : list A :=
  match l with
  | [] => [x]
  | y :: l' =>
      if String.ltb (key y) (key x) then y :: insert_by key x l'
      else x :: l
  end.

Definition sorted_by {A} (key : A → string) (l : list A) : list A :=
  foldr (insert_by key) [] l.

(** [preprocess_name(name.split(' (')[0])]. *)
Definition base_name (name : string) : string :=
  preprocess_name (VStr (Py.split_head " (" name)).

(** Line 312. [set(cluster)] is iterated in hash order, which only decides
    the order of members with equal keys; here each member is kept once, at
    its last occurrence in the list. *)
Definition unique_cluster (key : string) (similars : list string)
  : list string :=
  sorted_by Py.lower (remove_dups (key :: similars)).

Definition cluster_state : Type := list (list string) * gset string.

(** One iteration of the loop of lines 309-314. *)
Definition consolidate_step (st : cluster_state)
    (item : string * list string) : cluster_state :=
  let '(clusters, visited) := st in
  let '(key, similars) := item in
  if decide (key ∈ visited) then st
  else
    let cluster := unique_cluster key similars in
    (clusters ++ [cluster],
     visited ∪ list_to_set (base_name <$> cluster)).

Definition consolidate_loop (all_potential_duplicates :
    list (string * list string)) : cluster_state :=
  fold_left consolidate_step all_potential_duplicates ([], ∅).

(** The clusters in the order in which the loop appends them. *)
Definition consolidate (m : list (string * list string))
  : list (list string) :=
  (consolidate_loop m).1.

(** [clusters.sort(key=lambda x: x[0])]. *)
Definition sort_clusters (clusters : list (list string))
  : list (list string) :=
  sorted_by (λ x, default "" (head x)) clusters.

Definition emitted_clusters (m : list (string * list string))
  : list (list string) :=
  sort_clusters (consolidate m).

(** ** The whole notebook, from the [name] column to the cluster rows *)

Definition run soundex metaphone levenshtein_distance jaro_winkler_similarity
    (column : list value) : result (list (list string)) :=
  let names := preprocess_name <$> column in
  let blocked_org_members := block_names names in
  m ←! all_potential_duplicates soundex metaphone levenshtein_distance
         jaro_winkler_similarity blocked_org_members;
  Ok (emitted_clusters m).

(** ** The cluster table (lines 329 and 341-343) *)

(** A data frame of strings: the column labels and the rows, a missing
    cell being [None]. *)
Record frame := Frame {
  frame_columns : list string;
  frame_rows : list (list (option string))
}.

(** [pd.DataFrame(clusters).shape[1]]: the length of the longest row, 0
    when there is no row. *)
Definition frame_width (clusters : list (list string)) : nat :=
  max_list (length <$> clusters).

(** A row of [pd.DataFrame(clusters)]: shorter rows end in missing cells. *)
Definition pad_row (width : nat) (row : list string) : list (option string) :=
  (Some <$> row) ++ replicate (width - length row) None.

(** Line 342: ['name'] + [f'duplicate_{i}' for i in range(1, max_cols)]. *)
Definition column_names (max_cols : nat) : list string :=
  "name" :: ((λ i, "duplicate_" +:+ Py.dec (Z.of_nat i))
               <$> seq 1 (max_cols - 1)).

(** Lines 329 and 341-343. Assigning [columns] raises [ValueError] when the
    number of labels is not the number of columns of the frame. *)
Definition clustered_df (clusters : list (list string)) : result frame :=
  let max_cols := frame_width clusters in
  let names := column_names max_cols in
  if decide (length names = max_cols)
  then Ok (Frame names (pad_row max_cols <$> clusters))
  else Raise ValueError.

(** The notebook up to the frame that line 355 writes. *)
Definition notebook soundex metaphone levenshtein_distance
    jaro_winkler_similarity (column : list value) : result frame :=
  clusters ←! run soundex metaphone levenshtein_distance
                jaro_winkler_similarity column;
  clustered_df clusters.

(** ** Vocabulary of the statements *)

Definition first_char (s : string) : option ascii :=
  match s with
  | "" => None
  | String c _ => Some c
  end.

Fixpoint last_char (s : string) : option ascii :=
  match s with
  | "" => None
  | String c s' =>
      match s' with
      | "" => Some c
      | String _ _ => last_char s'
      end
  end.

(** The values of a column whose normal form is the empty string. *)
Definition empty_names (column : list value) : list value :=
  filter (λ v, preprocess_name v = "") column.

(** A name in normal form that holds no [" ("]: the names for which line
    313 recovers the name from its record. *)
Definition plain_name (n : string) : Prop :=
  Py.split_head " (" n = n ∧ preprocess_name (VStr n) = n.

(** The cluster that line 312 builds from an item of the match map. *)
Definition cluster_of (item : string * list string) : list string :=
  unique_cluster item.1 item.2.

(** [a] does not sort after [b]: the order of [sorted] and [sort]. *)
Definition str_le (a b : string) : Prop := String.ltb b a = false.

(** A string that does not start with white space. *)
Definition starts_clean (s : string) : Prop :=
  match s with
  | "" => True
  | String c _ => Py.is_space c = false
  end.

Definition is_digit (c : ascii) : bool :=
  ((48 <=? Py.code c) && (Py.code c <=? 57))%N.

Fixpoint all_digits (s : string) : bool :=
  match s with
  | "" => true
  | String c s' => is_digit c && all_digits s'
  end.

(** A decimal numeral with exactly two digits after the point. *)
Definition two_decimals (s : string) : Prop :=
  ∃ sign ip d1 d2,
    s = sign +:+ ip +:+ "." +:+ String d1 (String d2 "")
    ∧ (sign = "" ∨ sign = "-")
    ∧ ip ≠ "" ∧ all_digits ip ∧ is_digit d1 ∧ is_digit d2.

(** [e] is in the list that the match map [d] holds for the key [k]. *)
Definition dd_entry {K V} (k : K) (e : V) (d : list (K * list V)) : Prop :=
  ∃ l, (k, l) ∈ d ∧ e ∈ l.

(** The names at two positions [i < j] of a chunk. *)
Definition positions_pair (chunk : list string) (a b : string) : Prop :=
  ∃ i j, i < j ∧ chunk !! i = Some a ∧ chunk !! j = Some b.

Section Vocabulary.

Variables soundex metaphone : string → string.
Variable levenshtein_distance : string → string → nat.
Variable jaro_winkler_similarity : string → string → Q.

(** [name1] and [name2] were scored [s] and [s] passes the test of line
    188. *)
Definition scored_match (threshold : Q) (name1 name2 : string) (s : Q)
  : Prop :=
  get_similarity_score soundex metaphone levenshtein_distance
    jaro_winkler_similarity (VStr name1) (VStr name2) = Ok s
  ∧ (threshold < s)%Q ∧ (s < 1)%Q.

(** [e] is the match record that the list of [k] gets from a scored pair
    of [names]: the other name of the pair and the pair's score. *)
Definition is_record (threshold : Q) (names : list string)
    (k e : string) : Prop :=
  ∃ other s,
    e = match_record other s
    ∧ k ∈ names ∧ other ∈ names
    ∧ (scored_match threshold k other s ∨ scored_match threshold other k s).

(** The invariant of the loop of lines 179-191 once the pairs [done] have
    been taken: [seen_pairs] holds their ordered forms, every entry of
    [potential_duplicates] comes from a seen pair that passed the test, and
    every such pair has its two entries. *)
Definition chunk_inv (threshold : Q) (done : list (string * string))
    (st : chunk_state) : Prop :=
  Forall (λ kv, kv.2 ≠ []) st.1
  ∧ (∀ p, p ∈ st.2 ↔ ∃ q, q ∈ done ∧ p = order_pair q.1 q.2)
  ∧ (∀ k e, dd_entry k e st.1 →
       ∃ n1 n2 s, (n1, n2) ∈ st.2 ∧ scored_match threshold n1 n2 s
         ∧ ((k = n1 ∧ e = match_record n2 s)
            ∨ (k = n2 ∧ e = match_record n1 s)))
  ∧ (∀ n1 n2 s, (n1, n2) ∈ st.2 → scored_match threshold n1 n2 s →
       dd_entry n1 (match_record n2 s) st.1
       ∧ dd_entry n2 (match_record n1 s) st.1).

End Vocabulary.

(** The invariant of the loop of lines 309-314 over the items [m] taken so
    far: the base names of all members are visited; a later cluster holds a
    key that is the base name of no member of an earlier cluster; and the
    members of a cluster are a key of [m] and its matches. *)
Definition cluster_inv (m : list (string * list string))
    (st : cluster_state) : Prop :=
  (∀ c e, c ∈ st.1 → e ∈ c → base_name e ∈ st.2)
  ∧ (∀ i j ci cj, i < j → st.1 !! i = Some ci → st.1 !! j = Some cj →
       ∃ key, key ∈ dd_keys m ∧ key ∈ cj
         ∧ ∀ e, e ∈ ci → base_name e ≠ key)
  ∧ (∀ c, c ∈ st.1 →
       ∃ k l, (k, l) ∈ m ∧ ∀ e, e ∈ c ↔ e = k ∨ e ∈ l).

(** The claim that no name, as a base name, is in two clusters. *)
Definition clusters_disjoint (clusters : list (list string)) : Prop :=
  ∀ i j ci cj e1 e2,
    clusters !! i = Some ci → clusters !! j = Some cj →
    e1 ∈ ci → e2 ∈ cj → base_name e1 = base_name e2 → i = j.

(** ** A reference provider

    Executable stand-ins for the four external primitives, used to run the
    model on examples: the edit distance is Levenshtein's; the two phonetic
    codes and the alignment similarity are simplified. *)

Module Ref.

Definition is_vowel (c : ascii) : bool :=
  bool_decide (c ∈ ["a"; "e"; "i"; "o"; "u"; "y"; "h"; "w"; " "]%char).

(** The consonant class of a Soundex code. *)
Definition soundex_class (c : ascii) : option ascii :=
  if bool_decide (c ∈ ["b"; "f"; "p"; "v"]%char) then Some "1"%char
  else if bool_decide (c ∈ ["c"; "g"; "j"; "k"; "q"; "s"; "x"; "z"]%char)
  then Some "2"%char
  else if bool_decide (c ∈ ["d"; "t"]%char) then Some "3"%char
  else if bool_decide (c = "l"%char) then Some "4"%char
  else if bool_decide (c ∈ ["m"; "n"]%char) then Some "5"%char
  else if bool_decide (c = "r"%char) then Some "6"%char
  else None.

Fixpoint soundex_digits (prev : option ascii) (s : string) : string :=
  match s with
  | "" => ""
  | String c s' =>
      let d := soundex_class c in
      match d with
      | Some x =>
          if bool_decide (d = prev) then soundex_digits d s'
          else String x (soundex_digits d s')
      | None => soundex_digits d s'
      end
  end.

Definition soundex (s : string) : string :=
  match s with
  | "" => ""
  | String c s' =>
      String c (substring 0 3 (soundex_digits (soundex_class c) s' +:+ "000"))
  end.

(** The consonant skeleton of a name. *)
Fixpoint skeleton (s : string) : string :=
  match s with
  | "" => ""
  | String c s' => if is_vowel c then skeleton s' else String c (skeleton s')
  end.

Definition metaphone (s : string) : string := skeleton s.

Fixpoint levenshtein_distance (a b : string) : nat :=
  match a with
  | "" => String.length b
  | String x a' =>
      (fix inner (b : string) : nat :=
         match b with
         | "" => String.length a
         | String y b' =>
             (S (levenshtein_distance a' b) `min` S (inner b'))
               `min` ((if bool_decide (x = y) then 0 else 1)
                      + levenshtein_distance a' b')
         end) b
  end.

Fixpoint common_prefix (a b : string) : nat :=
  match a, b with
  | String x a', String y b' =>
      if bool_decide (x = y) then S (common_prefix a' b') else 0
  | _, _ => 0
  end.

(** One minus the edit distance over the longer length, the first four
    common characters counting a tenth each of what is left. *)
Definition jaro_winkler_similarity (a b : string) : Q :=
  match String.length a `max` String.length b with
  | O => 0%Q
  | S n =>
      let sim := (1 - (Z.of_nat (levenshtein_distance a b)
                       # Pos.of_succ_nat n))%Q in
      let p := Z.of_nat (common_prefix a b `min` 4) in
      Qred (sim + (p # 10) * (1 - sim))%Q
  end.

Definition get_similarity_score :=
  get_similarity_score soundex metaphone levenshtein_distance
    jaro_winkler_similarity.
Definition process_chunk_loop :=
  process_chunk_loop soundex metaphone levenshtein_distance
    jaro_winkler_similarity.
Definition process_chunk :=
  process_chunk soundex metaphone levenshtein_distance
    jaro_winkler_similarity.
Definition process_block_with_threads :=
  process_block_with_threads soundex metaphone levenshtein_distance
    jaro_winkler_similarity.
Definition all_potential_duplicates :=
  all_potential_duplicates soundex metaphone levenshtein_distance
    jaro_winkler_similarity.
Definition run :=
  run soundex metaphone levenshtein_distance jaro_winkler_similarity.
Definition notebook :=
  notebook soundex metaphone levenshtein_distance jaro_winkler_similarity.

End Ref.

(** * Properties *)

(** ** The error monad *)

Lemma result_bind_Ok {A B} (m : result A) (k : A → result B) (b : B) :
  result_bind m k = Ok b ↔ ∃ a, m = Ok a ∧ k a = Ok b.
Proof.
  destruct m as [a|e]; simpl; split.
  - eauto.
  - by intros (a' & [= <-] & Hk).
  - done.
  - by intros (a' & [=] & _).
Qed.

Ltac inv_bind H :=
  repeat match type of H with
  | result_bind _ _ = Ok _ =>
      let x := fresh "x" in
      let Hx := fresh "Hx" in
      apply result_bind_Ok in H as (x & Hx & H)
  | Ok _ = Ok _ => injection H as H
  end.

(** An invariant of a loop that may raise, indexed by the items done. *)
Lemma foldM_ind {S X} (f : S → X → result S) (P : list X → S → Prop) :
  (∀ done x s s', P done s → f s x = Ok s' → P (done ++ [x]) s') →
  ∀ xs done s s', P done s → foldM f xs s = Ok s' → P (done ++ xs) s'.
Proof.
  intros Hstep xs. induction xs as [|x xs IH]; intros done s s' HP Hrun.
  - simpl in Hrun. injection Hrun as <-. by rewrite app_nil_r.
  - simpl in Hrun. apply result_bind_Ok in Hrun as (s1 & Hf & Hrun).
    rewrite (cons_middle x done xs), app_assoc.
    eapply IH; [|exact Hrun]. by eapply Hstep.
Qed.

Lemma mapM_Ok {X Y} (f : X → result Y) (xs : list X) (ys : list Y) :
  mapM f xs = Ok ys ↔ Forall2 (λ x y, f x = Ok y) xs ys.
Proof.
  revert ys. induction xs as [|x xs IH]; intros ys; simpl.
  - split.
    + intros [= <-]. constructor.
    + by intros ->%Forall2_nil_inv_l.
  - split.
    + intros H. inv_bind H. subst ys. constructor; [done|]. by apply IH.
    + intros (y & ys' & Hy & Hys & ->)%Forall2_cons_inv_l.
      rewrite Hy. simpl. apply IH in Hys. by rewrite Hys.
Qed.

(** ** Normalizer *)

Module PyFacts.
Import Py.

Lemma lower_char_idemp c : lower_char (lower_char c) = lower_char c.
Proof. by destruct c as [[] [] [] [] [] [] [] []]. Qed.

Lemma is_space_lower_char c : is_space (lower_char c) = is_space c.
Proof. by destruct c as [[] [] [] [] [] [] [] []]. Qed.

Lemma lower_idemp s : lower (lower s) = lower s.
Proof.
  induction s as [|c s IH]; simpl; [done|].
  by rewrite lower_char_idemp, IH.
Qed.

Lemma lower_lstrip s : lower (lstrip s) = lstrip (lower s).
Proof.
  induction s as [|c s IH]; simpl; [done|].
  rewrite is_space_lower_char. by destruct (is_space c).
Qed.

Lemma lower_empty s : lower s = "" ↔ s = "".
Proof. by destruct s. Qed.

Lemma lower_rstrip s : lower (rstrip s) = rstrip (lower s).
Proof.
  induction s as [|c s IH]; simpl; [done|].
  rewrite <-IH, is_space_lower_char.
  destruct (rstrip s) as [|d r]; simpl; [|done].
  by destruct (is_space c).
Qed.

Lemma lower_strip s : lower (strip s) = strip (lower s).
Proof. unfold strip. by rewrite lower_rstrip, lower_lstrip. Qed.

Lemma rstrip_idemp s : rstrip (rstrip s) = rstrip s.
Proof.
  induction s as [|c s IH]; simpl; [done|].
  destruct (rstrip s) as [|d r] eqn:Hr.
  - destruct (is_space c) eqn:Hc; simpl; [done|]. by rewrite Hc.
  - cbn [rstrip] in *. rewrite IH. done.
Qed.

Lemma lstrip_starts_clean s : starts_clean (lstrip s).
Proof.
  induction s as [|c s IH]; simpl; [done|].
  by destruct (is_space c) eqn:Hc.
Qed.

Lemma lstrip_clean s : starts_clean s → lstrip s = s.
Proof. destruct s as [|c s]; simpl; [done|]. by intros ->. Qed.

Lemma rstrip_starts_clean s : starts_clean s → starts_clean (rstrip s).
Proof.
  destruct s as [|c s]; simpl; [done|]. intros Hc.
  destruct (rstrip s); simpl; [|done]. by rewrite Hc.
Qed.

Lemma strip_idemp s : strip (strip s) = strip s.
Proof.
  unfold strip.
  rewrite (lstrip_clean (rstrip (lstrip s))).
  - apply rstrip_idemp.
  - apply rstrip_starts_clean, lstrip_starts_clean.
Qed.

End PyFacts.

Lemma preprocess_name_normal (x : value) :
  preprocess_name (VStr (preprocess_name x)) = preprocess_name x.
Proof.
  destruct x as [s| | | |]; simpl; try done.
  rewrite <-PyFacts.lower_strip, PyFacts.strip_idemp.
  apply PyFacts.lower_idemp.
Qed.

(** C8. The normalizer is idempotent: normalizing the string it returned
    gives that string again, for every value, string or not. *)
Theorem preprocess_name_idempotent (x : value) :
  preprocess_name (VStr (preprocess_name x)) = preprocess_name x.
Proof.
  destruct x as [s| | | |]; [|done..].
  change (Py.lower (Py.strip (Py.lower (Py.strip s)))
          = Py.lower (Py.strip s)).
  by rewrite <-PyFacts.lower_strip, PyFacts.strip_idemp, PyFacts.lower_idemp.
Qed.

Example preprocess_name_ex :
  preprocess_name (VStr "  Jon SMITH ") = "jon smith"
  ∧ preprocess_name VNaN = "".
Proof. done. Qed.

(** ** Similarity scorer *)

Section ScorerFacts.

Variables soundex metaphone : string → string.
Variable levenshtein_distance : string → string → nat.
Variable jaro_winkler_similarity : string → string → Q.

Local Abbreviation score := (get_similarity_score soundex metaphone
  levenshtein_distance jaro_winkler_similarity).

(** C10. The scorer gives the same outcome on its arguments and on their
    normal forms: the same score, or the same exception when both names
    normalize to the empty string. *)
Theorem get_similarity_score_prenormalized (a b : value) :
  score a b = score (VStr (preprocess_name a)) (VStr (preprocess_name b)).
Proof.
  unfold get_similarity_score.
  by rewrite !preprocess_name_normal.
Qed.

Lemma get_similarity_score_empty (a b : value) :
  preprocess_name a = "" → preprocess_name b = "" →
  score a b = Raise ZeroDivisionError.
Proof. intros Ha Hb. unfold get_similarity_score. by rewrite Ha, Hb. Qed.

Lemma get_similarity_score_defined (a b : value) :
  preprocess_name a ≠ "" ∨ preprocess_name b ≠ "" →
  ∃ s, score a b = Ok s.
Proof.
  intros Hne. unfold get_similarity_score.
  destruct (String.length (preprocess_name a)
            `max` String.length (preprocess_name b)) as [|n] eqn:Hmax.
  - destruct (preprocess_name a), (preprocess_name b);
      simpl in Hmax; try done. by destruct Hne.
  - simpl. eauto.
Qed.

(** C2. On two names that normalize to the empty string the scorer raises
    [ZeroDivisionError]: the division of line 93 has no guard. This holds
    for the empty string, for white space, for missing values, and for a
    run of the notebook on a column with two missing names. *)
Theorem get_similarity_score_empty_raises :
  score (VStr "") (VStr "") = Raise ZeroDivisionError
  ∧ score (VStr "  ") (VStr "") = Raise ZeroDivisionError
  ∧ score VNone VNaN = Raise ZeroDivisionError
  ∧ run soundex metaphone levenshtein_distance jaro_winkler_similarity
      [VNaN; VNaN] = Raise ZeroDivisionError.
Proof. done. Qed.

Hypothesis levenshtein_distance_sym :
  ∀ a b, levenshtein_distance a b = levenshtein_distance b a.
Hypothesis jaro_winkler_similarity_sym :
  ∀ a b, jaro_winkler_similarity a b = jaro_winkler_similarity b a.

(** C6. The scorer is symmetric, the edit distance and the alignment
    similarity of the provider being symmetric: both orders give the same
    score, or both raise. *)
Theorem get_similarity_score_sym (a b : value) :
  score a b = score b a.
Proof.
  unfold get_similarity_score.
  rewrite (levenshtein_distance_sym (preprocess_name a)),
    (jaro_winkler_similarity_sym (preprocess_name a)),
    (Nat.max_comm (String.length (preprocess_name a))).
  rewrite (bool_decide_ext (soundex (preprocess_name a) = _)
             (soundex (preprocess_name b) = soundex (preprocess_name a)))
    by done.
  by rewrite (bool_decide_ext (metaphone (preprocess_name a) = _)
             (metaphone (preprocess_name b) = metaphone (preprocess_name a)))
    by done.
Qed.

End ScorerFacts.

(** ** [defaultdict(list)] *)

Section DefaultdictFacts.

Context {K V : Type} `{EqDecision K}.
Implicit Types (k : K) (vs l : list V) (d : list (K * list V)).

Lemma dd_lookup_extend k k' vs d :
  dd_lookup k' (dd_extend k vs d)
  = if decide (k' = k) then Some (default [] (dd_lookup k d) ++ vs)
    else dd_lookup k' d.
Proof.
  induction d as [|[k0 l0] d IH]; simpl.
  - by destruct (decide (k' = k)).
  - destruct (decide (k = k0)) as [->|?]; simpl.
    + by destruct (decide (k' = k0)).
    + rewrite IH. destruct (decide (k' = k0)) as [->|?]; [|done].
      by rewrite decide_False.
Qed.

Lemma dd_lookup_extend_eq k vs d :
  dd_lookup k (dd_extend k vs d) = Some (default [] (dd_lookup k d) ++ vs).
Proof. rewrite dd_lookup_extend. by case_decide. Qed.

Lemma dd_lookup_extend_ne k k' vs d :
  k' ≠ k → dd_lookup k' (dd_extend k vs d) = dd_lookup k' d.
Proof. intros ?. rewrite dd_lookup_extend. by case_decide. Qed.

Lemma dd_lookup_None k d : dd_lookup k d = None ↔ k ∉ dd_keys d.
Proof.
  unfold dd_keys. induction d as [|[k0 l0] d IH]; simpl.
  - split; [intros _|done]. apply not_elem_of_nil.
  - rewrite not_elem_of_cons. destruct (decide (k = k0)); [|tauto].
    split; [done|]. by intros [? _].
Qed.

Lemma dd_lookup_Some_elem k l d : dd_lookup k d = Some l → (k, l) ∈ d.
Proof.
  induction d as [|[k0 l0] d IH]; simpl; [done|].
  case_decide.
  - intros [= ->]. subst. left.
  - intros. right. auto.
Qed.

Lemma dd_elem_lookup k l d :
  NoDup (dd_keys d) → (k, l) ∈ d → dd_lookup k d = Some l.
Proof.
  unfold dd_keys. induction d as [|[k0 l0] d IH]; simpl.
  - by intros _ ?%elem_of_nil.
  - intros [Hk0 Hd]%NoDup_cons [[= -> ->]|Hin]%elem_of_cons.
    + by rewrite decide_True.
    + destruct (decide (k = k0)) as [->|?]; [|by auto]. destruct Hk0.
      apply list_elem_of_fmap. by exists (k0, l).
Qed.

Lemma dd_keys_extend k vs d :
  dd_keys (dd_extend k vs d)
  = if decide (k ∈ dd_keys d) then dd_keys d else dd_keys d ++ [k].
Proof.
  unfold dd_keys. induction d as [|[k0 l0] d IH]; csimpl.
  - done.
  - destruct (decide (k = k0)) as [->|Hne]; csimpl.
    + rewrite decide_True; [done|left].
    + rewrite IH. destruct (decide (k ∈ d.*1)).
      * rewrite decide_True; [done|by right].
      * rewrite decide_False; [done|]. by intros [?|?]%elem_of_cons.
Qed.

Lemma dd_extend_NoDup k vs d :
  NoDup (dd_keys d) → NoDup (dd_keys (dd_extend k vs d)).
Proof.
  intros Hd. rewrite dd_keys_extend. case_decide; [done|].
  apply NoDup_app. split_and!; [done| |apply NoDup_singleton].
  intros x Hx ->%list_elem_of_singleton. done.
Qed.

Lemma dd_extend_values k vs d :
  concat (dd_values (dd_extend k vs d)) ≡ₚ concat (dd_values d) ++ vs.
Proof.
  unfold dd_values. induction d as [|[k0 l0] d IH]; simpl.
  - by rewrite app_nil_r.
  - case_decide; simpl.
    + rewrite <-!app_assoc. f_equiv. apply Permutation_app_comm.
    + by rewrite IH, app_assoc.
Qed.

Lemma dd_extend_nonempty k vs d :
  vs ≠ [] → Forall (λ kv, kv.2 ≠ []) d →
  Forall (λ kv, kv.2 ≠ []) (dd_extend k vs d).
Proof.
  intros Hvs. induction 1 as [|[k0 l0] d Hl Hd IH]; simpl.
  - by repeat constructor.
  - case_decide; constructor; simpl in *; try done.
    by intros [? ?]%app_eq_nil.
Qed.

End DefaultdictFacts.

(** ** Blocking *)

Lemma block_names_fold (names : list string) acc :
  let blocks :=
    fold_left (λ blocks name, dd_append (first_letter name) name blocks)
      names acc in
  (NoDup (dd_keys acc) → NoDup (dd_keys blocks))
  ∧ (∀ k, dd_lookup k blocks
          = match filter (λ n, first_letter n = k) names with
            | [] => dd_lookup k acc
            | l => Some (default [] (dd_lookup k acc) ++ l)
            end)
  ∧ concat (dd_values blocks) ≡ₚ concat (dd_values acc) ++ names.
Proof.
  revert acc. induction names as [|n names IH]; intros acc; simpl.
  - split_and!; [done|done|by rewrite app_nil_r].
  - destruct (IH (dd_append (first_letter n) n acc)) as (IH1 & IH2 & IH3).
    unfold dd_append in *. split_and!.
    + intros Hacc. by apply IH1, dd_extend_NoDup.
    + intros k. rewrite IH2, dd_lookup_extend, filter_cons.
      destruct (decide (first_letter n = k)) as [<-|Hne].
      * rewrite decide_True by done. simpl.
        destruct (filter _ names); [done|]. by rewrite <-app_assoc.
      * by rewrite decide_False by done.
    + rewrite IH3, dd_extend_values, <-app_assoc. done.
Qed.

Lemma block_names_lookup (names : list string) (k : string) :
  dd_lookup k (block_names names)
  = match filter (λ n, first_letter n = k) names with
    | [] => None
    | l => Some l
    end.
Proof.
  unfold block_names.
  destruct (block_names_fold names []) as (_ & -> & _). done.
Qed.

Lemma block_names_NoDup (names : list string) :
  NoDup (dd_keys (block_names names)).
Proof.
  unfold block_names.
  destruct (block_names_fold names []) as (Hnd & _ & _).
  apply Hnd. constructor.
Qed.

Lemma block_names_item (names : list string) k l :
  (k, l) ∈ block_names names ↔
  l = filter (λ n, first_letter n = k) names ∧ l ≠ [].
Proof.
  split.
  - intros Hin%dd_elem_lookup; [|apply block_names_NoDup].
    rewrite block_names_lookup in Hin.
    destruct (filter _ names) eqn:Hf; [done|]. by injection Hin as <-.
  - intros [-> Hne]. apply dd_lookup_Some_elem.
    rewrite block_names_lookup. by destruct (filter _ names).
Qed.

(** C4. Blocking partitions the names: the keys are pairwise distinct; the
    block of a key is the list of the names whose first character is that
    key (the empty key for the empty name), in their input order; so every
    name is in the block of its first character and in no other, and the
    blocks together hold the input as a multiset. *)
Theorem block_names_partition (names : list string) :
  NoDup (dd_keys (block_names names))
  ∧ (∀ k l, (k, l) ∈ block_names names ↔
            l = filter (λ n, first_letter n = k) names ∧ l ≠ [])
  ∧ (∀ n, n ∈ names →
       (∃ l, (first_letter n, l) ∈ block_names names ∧ n ∈ l)
       ∧ ∀ k l, (k, l) ∈ block_names names → n ∈ l → k = first_letter n)
  ∧ concat (dd_values (block_names names)) ≡ₚ names.
Proof.
  pose proof (block_names_item names) as Hitem.
  split_and!.
  - apply block_names_NoDup.
  - exact Hitem.
  - intros n Hn. split.
    + exists (filter (λ m, first_letter m = first_letter n) names).
      assert (n ∈ filter (λ m, first_letter m = first_letter n) names)
        as Hin by by apply list_elem_of_filter.
      split; [|done]. apply Hitem. split; [done|].
      intros Hnil. rewrite Hnil in Hin. by apply elem_of_nil in Hin.
    + intros k l [-> _]%Hitem [Hk _]%list_elem_of_filter. done.
  - unfold block_names.
    by destruct (block_names_fold names []) as (_ & _ & ->).
Qed.

Example block_names_ex :
  block_names ["jon"; "ann"; ""; "john"; "amy"; ""]
  = [("j", ["jon"; "john"]); ("a", ["ann"; "amy"]); ("", [""; ""])].
Proof. done. Qed.

(** ** Chunking *)

Lemma range_loop_lookup fuel i stop step j x :
  range_loop fuel i stop step !! j = Some x → x = i + j * step ∧ x < stop.
Proof.
  revert i j. induction fuel as [|fuel IH]; intros i j; simpl; [done|].
  case_decide; [|done]. destruct j as [|j]; simpl.
  - intros [= <-]. lia.
  - intros [-> ?]%IH. lia.
Qed.

Lemma range_loop_length fuel i stop step :
  0 < step → stop - i ≤ fuel →
  length (range_loop fuel i stop step) = (stop - i + step - 1) / step.
Proof.
  intros Hstep. revert i.
  induction fuel as [|fuel IH]; intros i Hfuel; simpl.
  - replace (stop - i + step - 1) with (step - 1) by lia.
    symmetry. apply Nat.div_small. lia.
  - case_decide; simpl.
    + rewrite IH by lia. destruct (decide (stop - i ≤ step)).
      * replace (stop - (i + step) + step - 1) with (step - 1) by lia.
        rewrite Nat.div_small by lia.
        apply (Nat.div_unique _ _ _ (stop - i - 1)); lia.
      * replace (stop - i + step - 1)
          with (stop - (i + step) + step - 1 + 1 * step) by lia.
        rewrite Nat.div_add by lia. lia.
    + replace (stop - i + step - 1) with (step - 1) by lia.
      symmetry. apply Nat.div_small. lia.
Qed.

Lemma range_loop_concat {A} (l : list A) fuel i step :
  0 < step → length l - i ≤ fuel →
  concat ((λ i, slice l i (i + step)) <$> range_loop fuel i (length l) step)
  = drop i l.
Proof.
  intros Hstep. revert i.
  induction fuel as [|fuel IH]; intros i Hfuel; simpl.
  - rewrite drop_ge; [done|lia].
  - case_decide; csimpl.
    + rewrite IH by lia. unfold slice.
      replace (i + step - i) with step by lia.
      rewrite <-drop_drop. apply take_drop.
    + rewrite drop_ge; [done|lia].
Qed.

(** C5. For a positive chunk size the chunks of a block are the slices
    [j * chunk_size, j * chunk_size + chunk_size) for j = 0, 1, ...: each
    has at most [chunk_size] names, there are ceil (k / chunk_size) of
    them for [k] names, index ranges of distinct chunks do not meet, and
    their concatenation in order is the block's list. *)
Theorem block_chunks_partition (names : list string) (chunk_size : Z) :
  (0 < chunk_size)%Z →
  ∃ chunks,
    block_chunks names chunk_size = Ok chunks
    ∧ concat chunks = names
    ∧ Forall (λ c, (Z.of_nat (length c) ≤ chunk_size)%Z) chunks
    ∧ Z.of_nat (length chunks)
      = ((Z.of_nat (length names) + chunk_size - 1) / chunk_size)%Z
    ∧ (∀ j c, chunks !! j = Some c →
         c = slice names (j * Z.to_nat chunk_size)
               (j * Z.to_nat chunk_size + Z.to_nat chunk_size))
    ∧ (∀ j c t x, chunks !! j = Some c → c !! t = Some x →
         t < Z.to_nat chunk_size
         ∧ names !! (j * Z.to_nat chunk_size + t) = Some x).
Proof.
  intros Hpos. unfold block_chunks, py_range.
  rewrite decide_False by lia. rewrite decide_False by lia. simpl.
  set (cs := Z.to_nat chunk_size). assert (0 < cs) as Hcs by lia.
  eexists. split; [done|].
  assert (Hslice : ∀ j c,
    ((λ i, slice names i (i + cs))
       <$> range_loop (length names) 0 (length names) cs) !! j = Some c →
    c = slice names (j * cs) (j * cs + cs)).
  { intros j c. rewrite list_lookup_fmap.
    destruct (range_loop _ _ _ _ !! j) as [i|] eqn:Hi; [|done].
    apply range_loop_lookup in Hi as [-> _]. by intros [= <-]. }
  split_and!.
  - rewrite range_loop_concat by lia. done.
  - apply Forall_forall. intros c Hc.
    apply list_elem_of_lookup in Hc as [j ->%Hslice].
    unfold slice. rewrite length_take. lia.
  - rewrite length_fmap, range_loop_length by lia.
    rewrite Nat.sub_0_r.
    replace (Z.of_nat (length names) + chunk_size - 1)%Z
      with (Z.of_nat (length names + cs - 1)) by lia.
    rewrite Nat2Z.inj_div. f_equal. lia.
  - exact Hslice.
  - intros j c t x ->%Hslice. unfold slice.
    replace (j * cs + cs - j * cs) with cs by lia.
    intros Ht. apply lookup_take_Some in Ht as [Ht ?].
    rewrite lookup_drop in Ht. done.
Qed.

Lemma block_chunks_partition_witness :
  ∃ chunks,
    block_chunks ["a"; "b"; "c"; "d"; "e"] 2 = Ok chunks
    ∧ concat chunks = ["a"; "b"; "c"; "d"; "e"]
    ∧ Forall (λ c, (Z.of_nat (length c) ≤ 2)%Z) chunks
    ∧ Z.of_nat (length chunks) = ((Z.of_nat 5 + 2 - 1) / 2)%Z
    ∧ (∀ j c, chunks !! j = Some c →
         c = slice ["a"; "b"; "c"; "d"; "e"] (j * Z.to_nat 2)
               (j * Z.to_nat 2 + Z.to_nat 2))
    ∧ (∀ j c t x, chunks !! j = Some c → c !! t = Some x →
         t < Z.to_nat 2
         ∧ ["a"; "b"; "c"; "d"; "e"] !! (j * Z.to_nat 2 + t) = Some x).
Proof. apply (block_chunks_partition ["a"; "b"; "c"; "d"; "e"] 2). lia. Defined.

Example block_chunks_ex :
  block_chunks ["a"; "b"; "c"; "d"; "e"] 2
  = Ok [["a"; "b"]; ["c"; "d"]; ["e"]]
  ∧ block_chunks ["a"; "b"] 0 = Raise ValueError
  ∧ block_chunks ["a"; "b"] (-3) = Ok [].
Proof. done. Qed.

(** ** Formatting and comparison of scores *)

Lemma ltb_lt (x y : Q) : Py.ltb x y = true ↔ (x < y)%Q.
Proof. unfold Py.ltb, Qlt. apply Z.ltb_lt. Qed.

Lemma digit_is_digit (z : Z) : (0 ≤ z < 10)%Z → is_digit (Py.digit z) = true.
Proof.
  intros Hz.
  assert (z = 0 ∨ z = 1 ∨ z = 2 ∨ z = 3 ∨ z = 4 ∨ z = 5 ∨ z = 6 ∨ z = 7
          ∨ z = 8 ∨ z = 9)%Z as Hcases by lia.
  repeat destruct Hcases as [->|Hcases]; try done. by subst.
Qed.

Lemma string_of_uint_digits (d : Decimal.uint) :
  all_digits (NilEmpty.string_of_uint d) = true.
Proof. induction d; simpl; by rewrite ?IHd. Qed.

Lemma dec_digits (z : Z) : all_digits (Py.dec z) = true ∧ Py.dec z ≠ "".
Proof.
  unfold Py.dec, NilZero.string_of_uint.
  destruct (N.to_uint (Z.to_N z)) eqn:Hd; simpl;
    by rewrite ?string_of_uint_digits.
Qed.

Lemma format_2f_two_decimals (q : Q) : two_decimals (Py.format_2f q).
Proof.
  unfold Py.format_2f.
  set (h := Py.round_half_even (Qabs q * 100)).
  exists (if Py.ltb q 0 then "-" else ""), (Py.dec (h / 100)),
    (Py.digit ((h / 10) mod 10)), (Py.digit (h mod 10)).
  destruct (dec_digits (h / 100)) as [Hd Hne].
  split_and!; try done.
  - destruct (Py.ltb q 0); auto.
  - by rewrite Hd.
  - rewrite digit_is_digit; [done|]. by apply Z.mod_pos_bound.
  - rewrite digit_is_digit; [done|]. by apply Z.mod_pos_bound.
Qed.

(** ** Pairs, sorting, clusters *)

Lemma elem_of_combinations2 (l : list string) (a b : string) :
  (a, b) ∈ combinations2 l ↔ positions_pair l a b.
Proof.
  unfold positions_pair. induction l as [|x l IH]; simpl.
  - split; [by intros ?%elem_of_nil|]. by intros (i & j & _ & ? & _).
  - rewrite elem_of_app, list_elem_of_fmap, IH. split.
    + intros [(b' & [= -> ->] & Hb)|(i & j & Hij & Ha & Hb)].
      * apply list_elem_of_lookup in Hb as [j Hj].
        exists 0, (S j). split_and!; [lia|done|done].
      * exists (S i), (S j). split_and!; [lia|done|done].
    + intros (i & j & Hij & Ha & Hb). destruct j as [|j]; [lia|].
      destruct i as [|i]; simpl in *.
      * left. injection Ha as ->. exists b. split; [done|].
        by eapply list_elem_of_lookup_2.
      * right. exists i, j. split_and!; [lia|done|done].
Qed.

Lemma insert_by_perm {A} (key : A → string) (x : A) (l : list A) :
  insert_by key x l ≡ₚ x :: l.
Proof.
  induction l as [|y l IH]; simpl; [done|].
  destruct (String.ltb _ _); [|done]. by rewrite IH, Permutation_swap.
Qed.

Lemma sorted_by_perm {A} (key : A → string) (l : list A) :
  sorted_by key l ≡ₚ l.
Proof.
  unfold sorted_by. induction l as [|x l IH]; simpl; [done|].
  by rewrite insert_by_perm, IH.
Qed.

Lemma elem_of_unique_cluster (key : string) (similars : list string) e :
  e ∈ unique_cluster key similars ↔ e = key ∨ e ∈ similars.
Proof.
  unfold unique_cluster.
  by rewrite sorted_by_perm, elem_of_remove_dups, elem_of_cons.
Qed.

(** ** Entries of a match map *)

Section EntryFacts.

Context {K V : Type} `{EqDecision K}.
Implicit Types (k : K) (e : V) (vs l : list V) (d r : list (K * list V)).

Lemma dd_entry_nil k e : ¬ dd_entry k e ([] : list (K * list V)).
Proof. by intros (l & ?%elem_of_nil & _). Qed.

Lemma dd_entry_cons k e k0 l0 d :
  dd_entry k e ((k0, l0) :: d) ↔ (k = k0 ∧ e ∈ l0) ∨ dd_entry k e d.
Proof.
  unfold dd_entry. split.
  - intros (l & [[= -> ->]|Hin]%elem_of_cons & He); eauto.
  - intros [[-> He]|(l & Hin & He)].
    + exists l0. split; [left|done].
    + exists l. split; [by right|done].
Qed.

Lemma dd_entry_extend k e k0 vs d :
  dd_entry k e (dd_extend k0 vs d) ↔ dd_entry k e d ∨ (k = k0 ∧ e ∈ vs).
Proof.
  induction d as [|[k1 l1] d IH]; simpl.
  - rewrite dd_entry_cons. pose proof (dd_entry_nil k e). tauto.
  - destruct (decide (k0 = k1)) as [->|Hne].
    + rewrite !dd_entry_cons, elem_of_app. tauto.
    + rewrite !dd_entry_cons, IH. tauto.
Qed.

Lemma dd_entry_merge k e d r :
  dd_entry k e (merge_result d r) ↔ dd_entry k e d ∨ dd_entry k e r.
Proof.
  unfold merge_result. revert d.
  induction r as [|[k1 l1] r IH]; intros d; simpl.
  - pose proof (dd_entry_nil k e). tauto.
  - rewrite IH, dd_entry_extend, dd_entry_cons. tauto.
Qed.

Lemma dd_entry_merge_all k e d (rs : list (list (K * list V))) :
  dd_entry k e (fold_left merge_result rs d)
  ↔ dd_entry k e d ∨ ∃ r, r ∈ rs ∧ dd_entry k e r.
Proof.
  revert d. induction rs as [|r rs IH]; intros d; simpl.
  - split; [auto|]. intros [?|(r & ?%elem_of_nil & _)]; done.
  - rewrite IH, dd_entry_merge. split.
    + intros [[?|?]|(r' & ? & ?)]; [by left|right..].
      * exists r. split; [left|done].
      * exists r'. split; [by right|done].
    + intros [?|(r' & [->|?]%elem_of_cons & ?)]; [tauto|tauto|].
      right. by exists r'.
Qed.

Lemma merge_result_nonempty d r :
  Forall (λ kv, kv.2 ≠ []) d → Forall (λ kv, kv.2 ≠ []) r →
  Forall (λ kv, kv.2 ≠ []) (merge_result d r).
Proof.
  unfold merge_result. intros Hd Hr. revert d Hd.
  induction Hr as [|[k1 l1] r Hl Hr IH]; intros d Hd; simpl; [done|].
  apply IH. by apply dd_extend_nonempty.
Qed.

Lemma merge_all_nonempty d (rs : list (list (K * list V))) :
  Forall (λ kv, kv.2 ≠ []) d →
  Forall (Forall (λ kv, kv.2 ≠ [])) rs →
  Forall (λ kv, kv.2 ≠ []) (fold_left merge_result rs d).
Proof.
  intros Hd Hrs. revert d Hd.
  induction Hrs as [|r rs Hr Hrs IH]; intros d Hd; simpl; [done|].
  apply IH. by apply merge_result_nonempty.
Qed.

Lemma elem_of_dd_keys k d : k ∈ dd_keys d ↔ ∃ l, (k, l) ∈ d.
Proof.
  unfold dd_keys. rewrite list_elem_of_fmap. split.
  - intros ([k' l] & -> & Hin). by exists l.
  - intros (l & Hin). by exists (k, l).
Qed.

End EntryFacts.

(** ** Chunk comparator *)

Section ComparatorFacts.

Variables soundex metaphone : string → string.
Variable levenshtein_distance : string → string → nat.
Variable jaro_winkler_similarity : string → string → Q.

Local Abbreviation score := (get_similarity_score soundex metaphone
  levenshtein_distance jaro_winkler_similarity).
Local Abbreviation scored := (scored_match soundex metaphone
  levenshtein_distance jaro_winkler_similarity).
Local Abbreviation inv := (chunk_inv soundex metaphone
  levenshtein_distance jaro_winkler_similarity).
Local Abbreviation pair_step := (process_pair soundex metaphone
  levenshtein_distance jaro_winkler_similarity).
Local Abbreviation chunk_loop := (process_chunk_loop soundex metaphone
  levenshtein_distance jaro_winkler_similarity).
Local Abbreviation chunk_map := (process_chunk soundex metaphone
  levenshtein_distance jaro_winkler_similarity).

Lemma scored_match_test threshold n1 n2 s :
  score (VStr n1) (VStr n2) = Ok s →
  Py.ltb threshold s && Py.ltb s 1 = true ↔ scored threshold n1 n2 s.
Proof.
  intros Hs. unfold scored_match.
  rewrite andb_true_iff, !ltb_lt. tauto.
Qed.

Lemma chunk_inv_init threshold : inv threshold [] ([], ∅).
Proof.
  split_and!; simpl.
  - constructor.
  - intros p. split; [by intros ?%not_elem_of_empty|].
    by intros (q & ?%elem_of_nil & _).
  - by intros k e ?%dd_entry_nil.
  - by intros n1 n2 s ?%not_elem_of_empty.
Qed.

Lemma chunk_inv_step threshold done p st st' :
  inv threshold done st → pair_step threshold st p = Ok st' →
  inv threshold (done ++ [p]) st'.
Proof.
  destruct st as [pd seen]. intros (Hne & Hseen & Hfrom & Hto).
  unfold process_pair. simpl in *.
  destruct (order_pair p.1 p.2) as [n1 n2] eqn:Hp.
  assert (Hseen' : ∀ (seen' : gset (string * string)),
    (∀ q, q ∈ seen' ↔ q = (n1, n2) ∨ q ∈ seen) →
    ∀ q, q ∈ seen' ↔ ∃ q0, q0 ∈ done ++ [p] ∧ q = order_pair q0.1 q0.2).
  { intros seen' Hs q. rewrite Hs, Hseen. split.
    - intros [->|(q0 & Hq0 & ->)].
      + exists p. split; [|done]. apply elem_of_app. right. left.
      + exists q0. split; [|done]. apply elem_of_app. by left.
    - intros (q0 & [Hq0|Hq0]%elem_of_app & ->).
      + right. by exists q0.
      + apply list_elem_of_singleton in Hq0 as ->. left. done. }
  case_decide as Hin.
  { intros [= <-]. split_and!; simpl; try done.
    apply Hseen'. intros q. split; [auto|]. by intros [->|?]. }
  intros Hrun. apply result_bind_Ok in Hrun as (s & Hs & [= <-]).
  assert (Hunion : ∀ q, q ∈ ({[ (n1, n2) ]} ∪ seen : gset (string * string))
                        ↔ q = (n1, n2) ∨ q ∈ seen).
  { intros q. by rewrite elem_of_union, elem_of_singleton. }
  destruct (Py.ltb threshold s && Py.ltb s 1) eqn:Htest.
  - apply (scored_match_test _ _ _ _ Hs) in Htest.
    unfold dd_append. split_and!; simpl.
    + by repeat apply dd_extend_nonempty.
    + by apply Hseen'.
    + intros k e. rewrite !dd_entry_extend, !list_elem_of_singleton.
      intros [[Hold|[-> ->]]|[-> ->]].
      * destruct (Hfrom k e Hold) as (a & b & s' & Hab & Hsc & Hke).
        exists a, b, s'. rewrite Hunion. auto.
      * exists n1, n2, s. rewrite Hunion. auto.
      * exists n1, n2, s. rewrite Hunion. auto.
    + intros a b s'. rewrite Hunion, !dd_entry_extend,
        !list_elem_of_singleton.
      intros [[= -> ->]|Hab] Hsc.
      * destruct Hsc as (Hs' & _). rewrite Hs in Hs'.
        injection Hs' as <-. auto.
      * destruct (Hto a b s' Hab Hsc). auto.
  - split_and!; simpl.
    + done.
    + by apply Hseen'.
    + intros k e Hold.
      destruct (Hfrom k e Hold) as (a & b & s' & Hab & Hsc & Hke).
      exists a, b, s'. rewrite Hunion. auto.
    + intros a b s'. rewrite Hunion. intros [[= -> ->]|Hab] Hsc.
      * pose proof Hsc as (Hs' & _). rewrite Hs in Hs'.
        injection Hs' as <-.
        apply (scored_match_test _ _ _ _ Hs) in Hsc. congruence.
      * by apply Hto.
Qed.

Lemma process_chunk_loop_inv chunk threshold st :
  chunk_loop chunk threshold = Ok st →
  inv threshold (combinations2 chunk) st.
Proof.
  intros Hrun.
  apply (foldM_ind (pair_step threshold) (inv threshold)
           (chunk_inv_step threshold) _ [] _ _ (chunk_inv_init threshold)
           Hrun).
Qed.

Lemma process_chunk_Ok chunk threshold pd :
  chunk_map chunk threshold = Ok pd ↔
  ∃ seen, chunk_loop chunk threshold = Ok (pd, seen).
Proof.
  unfold process_chunk. rewrite result_bind_Ok. split.
  - intros ([pd' seen] & Hrun & [= <-]). by exists seen.
  - intros (seen & Hrun). by exists (pd, seen).
Qed.

Lemma order_pair_eq (a b : string) :
  a = b → order_pair a b = (a, a).
Proof. intros ->. unfold order_pair. by destruct (String.ltb b b). Qed.

Lemma order_pair_cases (a b : string) :
  order_pair a b = (a, b) ∨ order_pair a b = (b, a).
Proof. unfold order_pair. destruct (String.ltb b a); auto. Qed.

(** The pairs that the loop scores are the ordered forms of the pairs of
    names at two positions of the chunk. *)
Lemma seen_pairs_positions chunk threshold st n1 n2 :
  chunk_loop chunk threshold = Ok st →
  (n1, n2) ∈ st.2 ↔
  ∃ a b, positions_pair chunk a b ∧ (n1, n2) = order_pair a b.
Proof.
  intros (_ & Hseen & _)%process_chunk_loop_inv. rewrite Hseen. split.
  - intros ([a b] & Hq%elem_of_combinations2 & ->). by exists a, b.
  - intros (a & b & Hq%elem_of_combinations2 & ->). by exists (a, b).
Qed.

Lemma positions_pair_NoDup (chunk : list string) a b :
  NoDup chunk → positions_pair chunk a b → a ≠ b.
Proof.
  intros Hnd (i & j & Hij & Ha & Hb) ->.
  pose proof (NoDup_lookup _ _ _ _ Hnd Ha Hb). lia.
Qed.

(** C3, as amended. Every match record that the chunk comparator emits
    carries a score strictly between the threshold and 1.00, the score of
    a pair it scored; every pair it scores is made of the names at two
    different positions of the chunk, so a position is never compared with
    itself; and when the chunk holds no name twice, no scored pair has two
    equal names. *)
Theorem process_chunk_emits_in_range chunk threshold st :
  chunk_loop chunk threshold = Ok st →
  (∀ k e, dd_entry k e st.1 →
     ∃ n1 n2 s, (n1, n2) ∈ st.2
       ∧ score (VStr n1) (VStr n2) = Ok s
       ∧ (threshold < s)%Q ∧ (s < 1)%Q
       ∧ ¬ (s <= threshold)%Q ∧ ¬ (1 <= s)%Q
       ∧ ((k = n1 ∧ e = match_record n2 s)
          ∨ (k = n2 ∧ e = match_record n1 s)))
  ∧ (∀ n1 n2, (n1, n2) ∈ st.2 →
       ∃ i j a b, i < j ∧ chunk !! i = Some a ∧ chunk !! j = Some b
         ∧ (n1, n2) = order_pair a b)
  ∧ (NoDup chunk → ∀ n, (n, n) ∉ st.2).
Proof.
  intros Hrun. pose proof (process_chunk_loop_inv _ _ _ Hrun)
    as (_ & _ & Hfrom & _).
  split_and!.
  - intros k e Hke.
    destruct (Hfrom k e Hke) as (n1 & n2 & s & Hin & (Hs & Hlo & Hhi) & Hrec).
    exists n1, n2, s. split_and!; try done.
    + by apply Qlt_not_le.
    + by apply Qlt_not_le.
  - intros n1 n2 Hin.
    apply (seen_pairs_positions _ _ _ _ _ Hrun) in Hin
      as (a & b & (i & j & Hij & Ha & Hb) & Heq).
    by exists i, j, a, b.
  - intros Hnd n Hin.
    apply (seen_pairs_positions _ _ _ _ _ Hrun) in Hin
      as (a & b & Hpos & Heq).
    apply (positions_pair_NoDup _ _ _ Hnd) in Hpos.
    destruct (order_pair_cases a b) as [Hc|Hc]; rewrite Hc in Heq;
      congruence.
Qed.

(** Two equal names at two positions of a chunk are scored against each
    other, whatever the provider. *)
Lemma process_chunk_scores_repeated_name chunk threshold st n :
  chunk_loop chunk threshold = Ok st →
  positions_pair chunk n n → (n, n) ∈ st.2.
Proof.
  intros Hrun Hpos. apply (seen_pairs_positions _ _ _ _ _ Hrun).
  exists n, n. split; [done|]. by rewrite order_pair_eq.
Qed.

(** C7. When the chunk comparator scores the ordered pair of the names at
    two positions of the chunk and the score is strictly between the
    threshold and 1.00, the returned map holds both records: the list of
    each name of the pair holds the other name followed by the score in
    parentheses, the score written with exactly two decimals. Every entry
    of the returned map has its mirror entry, so the map is symmetric. *)
Theorem process_chunk_emits_both chunk threshold pd :
  chunk_map chunk threshold = Ok pd →
  (∀ i j a b s,
     i < j → chunk !! i = Some a → chunk !! j = Some b →
     score (VStr (order_pair a b).1) (VStr (order_pair a b).2) = Ok s →
     (threshold < s)%Q → (s < 1)%Q →
     dd_entry (order_pair a b).1
       ((order_pair a b).2 +:+ " (" +:+ Py.format_2f s +:+ ")") pd
     ∧ dd_entry (order_pair a b).2
       ((order_pair a b).1 +:+ " (" +:+ Py.format_2f s +:+ ")") pd
     ∧ two_decimals (Py.format_2f s))
  ∧ (∀ k e, dd_entry k e pd →
       ∃ other s, e = other +:+ " (" +:+ Py.format_2f s +:+ ")"
         ∧ dd_entry other (k +:+ " (" +:+ Py.format_2f s +:+ ")") pd).
Proof.
  intros (seen & Hrun)%process_chunk_Ok.
  pose proof (process_chunk_loop_inv _ _ _ Hrun) as (_ & _ & Hfrom & Hto).
  simpl in *. split.
  - intros i j a b s Hij Ha Hb Hs Hlo Hhi.
    destruct (order_pair a b) as [n1 n2] eqn:Hp. simpl in *.
    assert ((n1, n2) ∈ seen) as Hin.
    { apply (seen_pairs_positions _ _ _ _ _ Hrun). exists a, b.
      split; [by exists i, j|done]. }
    destruct (Hto n1 n2 s Hin) as [H1 H2]; [done|].
    split_and!; [exact H1|exact H2|apply format_2f_two_decimals].
  - intros k e Hke.
    destruct (Hfrom k e Hke) as (n1 & n2 & s & Hin & Hsc & Hrec).
    destruct (Hto n1 n2 s Hin Hsc) as [H1 H2].
    destruct Hrec as [[-> ->]|[-> ->]].
    + by exists n2, s.
    + by exists n1, s.
Qed.

End ComparatorFacts.

(** ** Orchestrator *)

Section OrchestratorFacts.

Variables soundex metaphone : string → string.
Variable levenshtein_distance : string → string → nat.
Variable jaro_winkler_similarity : string → string → Q.

Local Abbreviation record := (is_record soundex metaphone
  levenshtein_distance jaro_winkler_similarity).
Local Abbreviation chunk_map := (process_chunk soundex metaphone
  levenshtein_distance jaro_winkler_similarity).
Local Abbreviation block_map := (process_block_with_threads soundex
  metaphone levenshtein_distance jaro_winkler_similarity).
Local Abbreviation global_map := (all_potential_duplicates soundex
  metaphone levenshtein_distance jaro_winkler_similarity).

Lemma is_record_mono threshold (names names' : list string) k e :
  names ⊆ names' → record threshold names k e → record threshold names' k e.
Proof.
  intros Hsub (other & s & -> & Hk & Ho & Hsc).
  exists other, s. split_and!; auto.
Qed.

Lemma process_chunk_records chunk threshold pd :
  chunk_map chunk threshold = Ok pd →
  Forall (λ kv, kv.2 ≠ []) pd
  ∧ ∀ k e, dd_entry k e pd → record threshold chunk k e.
Proof.
  intros (seen & Hrun)%process_chunk_Ok.
  pose proof (process_chunk_loop_inv _ _ _ _ _ _ _ Hrun)
    as (Hne & _ & Hfrom & _).
  split; [done|]. intros k e Hke.
  destruct (Hfrom k e Hke) as (n1 & n2 & s & Hin & Hsc & Hrec).
  apply (seen_pairs_positions _ _ _ _ _ _ _ _ _ Hrun) in Hin
    as (a & b & (i & j & _ & Ha & Hb) & Heq).
  apply list_elem_of_lookup_2 in Ha, Hb.
  assert (n1 ∈ chunk ∧ n2 ∈ chunk) as [Hn1 Hn2].
  { destruct (order_pair_cases a b) as [Hc|Hc]; rewrite Hc in Heq;
      by injection Heq as -> ->. }
  destruct Hrec as [[-> ->]|[-> ->]].
  - exists n2, s. split_and!; auto.
  - exists n1, s. split_and!; auto.
Qed.

Lemma block_chunks_subseteq (names : list string) chunk_size chunks c :
  block_chunks names chunk_size = Ok chunks → c ∈ chunks → c ⊆ names.
Proof.
  unfold block_chunks, py_range.
  repeat case_decide; simpl; [done| |].
  - by intros [= <-] ?%elem_of_nil.
  - intros [= <-] (i & -> & _)%list_elem_of_fmap. unfold slice.
    etrans; [apply subseteq_take|apply subseteq_drop].
Qed.

Lemma mapM_elem {X Y} (f : X → result Y) xs ys y :
  mapM f xs = Ok ys → y ∈ ys → ∃ x, x ∈ xs ∧ f x = Ok y.
Proof.
  intros HF%mapM_Ok (i & Hi)%list_elem_of_lookup.
  destruct (Forall2_lookup_r _ _ _ _ _ HF Hi) as (x & Hx & Hfx).
  exists x. split; [by eapply list_elem_of_lookup_2|done].
Qed.

Lemma process_block_records names threshold chunk_size pd :
  block_map names threshold chunk_size = Ok pd →
  Forall (λ kv, kv.2 ≠ []) pd
  ∧ ∀ k e, dd_entry k e pd → record threshold names k e.
Proof.
  unfold process_block_with_threads. intros Hrun.
  apply result_bind_Ok in Hrun as (chunks & Hchunks & Hrun).
  apply result_bind_Ok in Hrun as (results & Hres & [= <-]).
  split.
  - apply merge_all_nonempty; [constructor|].
    apply Forall_forall. intros r Hr.
    destruct (mapM_elem _ _ _ _ Hres Hr) as (chunk & _ & Hchunk).
    by apply process_chunk_records in Hchunk as [? _].
  - intros k e [?%dd_entry_nil|(r & Hr & Hke)]%dd_entry_merge_all; [done|].
    destruct (mapM_elem _ _ _ _ Hres Hr) as (chunk & Hin & Hchunk).
    apply process_chunk_records in Hchunk as [_ Hrec].
    eapply is_record_mono; [|by apply Hrec].
    by eapply block_chunks_subseteq.
Qed.

Lemma all_potential_duplicates_records blocks m :
  global_map blocks = Ok m →
  Forall (λ kv, kv.2 ≠ []) m
  ∧ ∀ k e, dd_entry k e m →
      ∃ names, names ∈ dd_values blocks
        ∧ record default_threshold names k e.
Proof.
  unfold all_potential_duplicates. intros Hrun.
  apply result_bind_Ok in Hrun as (results & Hres & [= <-]).
  split.
  - apply merge_all_nonempty; [constructor|].
    apply Forall_forall. intros r Hr.
    destruct (mapM_elem _ _ _ _ Hres Hr) as (names & _ & Hblock).
    by apply process_block_records in Hblock as [? _].
  - intros k e [?%dd_entry_nil|(r & Hr & Hke)]%dd_entry_merge_all; [done|].
    destruct (mapM_elem _ _ _ _ Hres Hr) as (names & Hin & Hblock).
    apply process_block_records in Hblock as [_ Hrec].
    exists names. auto.
Qed.

Lemma block_names_subseteq (names block : list string) :
  block ∈ dd_values (block_names names) → block ⊆ names.
Proof.
  unfold dd_values. intros ([k l] & -> & Hin)%list_elem_of_fmap.
  apply block_names_item in Hin as [-> _]. simpl.
  intros n [_ ?]%list_elem_of_filter. done.
Qed.

End OrchestratorFacts.

(** ** Cluster consolidation *)

Lemma consolidate_loop_snoc m item :
  consolidate_loop (m ++ [item])
  = consolidate_step (consolidate_loop m) item.
Proof. unfold consolidate_loop. by rewrite fold_left_app. Qed.

Lemma consolidate_loop_inv m : cluster_inv m (consolidate_loop m).
Proof.
  induction m as [|[key similars] m IH] using rev_ind.
  - split_and!; simpl.
    + by intros c e ?%elem_of_nil.
    + by intros i j ci cj _ ?.
    + by intros c ?%elem_of_nil.
  - rewrite consolidate_loop_snoc.
    destruct (consolidate_loop m) as [clusters visited].
    destruct IH as (Hvis & Hfresh & Hmem). simpl in *.
    assert (Hkeys : ∀ k, k ∈ dd_keys m → k ∈ dd_keys (m ++ [(key, similars)])).
    { intros k. unfold dd_keys. rewrite fmap_app, elem_of_app. auto. }
    assert (Hmem' : ∀ c, c ∈ clusters →
      ∃ k l, (k, l) ∈ m ++ [(key, similars)] ∧ ∀ e, e ∈ c ↔ e = k ∨ e ∈ l).
    { intros c (k & l & Hin & Hc)%Hmem. exists k, l.
      split; [|done]. apply elem_of_app. by left. }
    assert (Hfresh' : ∀ i j ci cj, i < j →
      clusters !! i = Some ci → clusters !! j = Some cj →
      ∃ k, k ∈ dd_keys (m ++ [(key, similars)]) ∧ k ∈ cj
        ∧ ∀ e, e ∈ ci → base_name e ≠ k).
    { intros i j ci cj Hij Hi Hj.
      destruct (Hfresh i j ci cj Hij Hi Hj) as (k & Hk & ? & ?).
      exists k. auto. }
    case_decide as Hseen; [by split_and!|].
    split_and!; simpl.
    + intros c e [Hc|Hc]%elem_of_app He.
      * apply elem_of_union. left. by eapply Hvis.
      * apply list_elem_of_singleton in Hc as ->.
        apply elem_of_union. right. apply elem_of_list_to_set.
        apply list_elem_of_fmap. by exists e.
    + intros i j ci cj Hij Hi Hj.
      destruct (decide (j < length clusters)) as [Hlt|Hge].
      * rewrite lookup_app_l in Hi by lia.
        rewrite lookup_app_l in Hj by lia.
        exact (Hfresh' i j ci cj Hij Hi Hj).
      * rewrite lookup_app_r in Hj by lia.
        apply list_lookup_singleton_Some in Hj as [Hj <-].
        rewrite lookup_app_l in Hi by lia.
        exists key. split_and!.
        -- unfold dd_keys. rewrite fmap_app, elem_of_app. right. left.
        -- apply elem_of_unique_cluster. by left.
        -- intros e He <-. apply Hseen. eapply Hvis; [|done].
           by eapply list_elem_of_lookup_2.
    + intros c [Hc|Hc]%elem_of_app; [by auto|].
      apply list_elem_of_singleton in Hc as ->.
      exists key, similars. split.
      * apply elem_of_app. right. left.
      * apply elem_of_unique_cluster.
Qed.

Lemma emitted_clusters_perm m : emitted_clusters m ≡ₚ consolidate m.
Proof. apply sorted_by_perm. Qed.

(** Every member of an emitted cluster is a key of the match map or is in
    the list of a key. *)
Lemma emitted_clusters_members m c e :
  c ∈ emitted_clusters m → e ∈ c →
  e ∈ dd_keys m ∨ ∃ k, dd_entry k e m.
Proof.
  rewrite emitted_clusters_perm. intros Hc He.
  destruct (consolidate_loop_inv m) as (_ & _ & Hmem).
  destruct (Hmem c Hc) as (k & l & Hin & Hiff).
  apply Hiff in He as [->|He].
  - left. apply elem_of_dd_keys. by exists l.
  - right. exists k, l. done.
Qed.

(** The loop's clusters on a map in which "jann" matches both "jan" and
    "janne" while these two do not match each other. *)
Example consolidate_ex :
  consolidate [("jan", ["jann (0.93)"]);
               ("jann", ["jan (0.93)"; "janne (0.85)"]);
               ("janne", ["jann (0.85)"])]
  = [["jan"; "jann (0.93)"]; ["jann (0.85)"; "janne"]].
Proof. vm_compute. reflexivity. Qed.

(** C1, as stated, fails: on a match map in which "jann" matches both
    "jan" and "janne" and these two do not match each other, the emitted
    clusters are two and "jann" is a member of both. *)
Lemma consolidate_name_in_two_clusters :
  emitted_clusters [("jan", ["jann (0.93)"]);
                    ("jann", ["jan (0.93)"; "janne (0.85)"]);
                    ("janne", ["jann (0.85)"])]
  = [["jan"; "jann (0.93)"]; ["jann (0.85)"; "janne"]]
  ∧ base_name "jann (0.93)" = "jann"
  ∧ base_name "jann (0.85)" = "jann"
  ∧ ¬ clusters_disjoint
        (emitted_clusters [("jan", ["jann (0.93)"]);
                           ("jann", ["jan (0.93)"; "janne (0.85)"]);
                           ("janne", ["jann (0.85)"])]).
Proof.
  split_and!; [vm_compute; reflexivity..|].
  intros Hdisj.
  specialize (Hdisj 0 1 ["jan"; "jann (0.93)"] ["jann (0.85)"; "janne"]
                "jann (0.93)" "jann (0.85)").
  assert (0 = 1) as Heq; [|lia].
  apply Hdisj; try (vm_compute; reflexivity).
  - right. left.
  - left.
Qed.

(** ** Dropped names *)

Section DroppedNames.

Variables soundex metaphone : string → string.
Variable levenshtein_distance : string → string → nat.
Variable jaro_winkler_similarity : string → string → Q.

Local Abbreviation record := (is_record soundex metaphone
  levenshtein_distance jaro_winkler_similarity).
Local Abbreviation global_map := (all_potential_duplicates soundex
  metaphone levenshtein_distance jaro_winkler_similarity).

(** C9. In the match map of a run, every key has at least one entry and
    every entry of a key is a match record emitted for it, so a name with
    no emitted record is not a key; and a string that is neither a key nor
    in the list of a key is in no emitted cluster. *)
Theorem unmatched_names_dropped (names : list string) m :
  global_map (block_names names) = Ok m →
  (∀ k, k ∈ dd_keys m →
     ∃ e, dd_entry k e m ∧ record default_threshold names k e)
  ∧ (∀ k l, (k, l) ∈ m →
       l ≠ [] ∧ ∀ e, e ∈ l → record default_threshold names k e)
  ∧ (∀ x, x ∉ dd_keys m → (∀ k l, (k, l) ∈ m → x ∉ l) →
       ∀ c, c ∈ emitted_clusters m → x ∉ c).
Proof.
  intros Hrun.
  apply all_potential_duplicates_records in Hrun as [Hne Hrec].
  assert (Hitem : ∀ k l, (k, l) ∈ m →
    l ≠ [] ∧ ∀ e, e ∈ l → record default_threshold names k e).
  { intros k l Hin. split.
    - by apply (proj1 (Forall_forall _ _) Hne (k, l)).
    - intros e He. destruct (Hrec k e) as (block & Hblock & Hr).
      { by exists l. }
      eapply is_record_mono; [|done]. by apply block_names_subseteq. }
  split_and!; [|done|].
  - intros k (l & Hin)%elem_of_dd_keys.
    destruct (Hitem k l Hin) as [Hl Hall].
    destruct l as [|e l]; [done|]. exists e. split.
    + exists (e :: l). split; [done|left].
    + apply Hall. left.
  - intros x Hkey Hlist c Hc Hx.
    destruct (emitted_clusters_members m c x Hc Hx)
      as [?|(k & l & Hin & He)]; [done|].
    by apply (Hlist k l).
Qed.

End DroppedNames.

(** ** The reference provider *)

Lemma ref_levenshtein_nil_r a :
  Ref.levenshtein_distance a "" = String.length a.
Proof. by destruct a. Qed.

Lemma ref_levenshtein_cons x a y b :
  Ref.levenshtein_distance (String x a) (String y b)
  = (S (Ref.levenshtein_distance a (String y b))
       `min` S (Ref.levenshtein_distance (String x a) b))
      `min` ((if bool_decide (x = y) then 0 else 1)
             + Ref.levenshtein_distance a b).
Proof. done. Qed.

Lemma ref_levenshtein_sym a b :
  Ref.levenshtein_distance a b = Ref.levenshtein_distance b a.
Proof.
  revert b. induction a as [|x a IHa]; intros b.
  - by rewrite ref_levenshtein_nil_r.
  - induction b as [|y b IHb]; [done|].
    rewrite !ref_levenshtein_cons, IHb, (IHa (String y b)), (IHa b).
    rewrite (bool_decide_ext (x = y) (y = x)) by done. lia.
Qed.

Lemma ref_common_prefix_sym a b :
  Ref.common_prefix a b = Ref.common_prefix b a.
Proof.
  revert b. induction a as [|x a IH]; intros [|y b]; simpl; try done.
  rewrite (bool_decide_ext (x = y) (y = x)) by done.
  by rewrite IH.
Qed.

Lemma ref_jaro_winkler_sym a b :
  Ref.jaro_winkler_similarity a b = Ref.jaro_winkler_similarity b a.
Proof.
  unfold Ref.jaro_winkler_similarity.
  by rewrite (Nat.max_comm (String.length a)), ref_levenshtein_sym,
    ref_common_prefix_sym.
Qed.

Lemma get_similarity_score_sym_witness :
  Ref.get_similarity_score (VStr "Jon Smith") (VStr "john smith")
  = Ref.get_similarity_score (VStr "john smith") (VStr "Jon Smith").
Proof.
  apply (get_similarity_score_sym Ref.soundex Ref.metaphone
           Ref.levenshtein_distance Ref.jaro_winkler_similarity
           ref_levenshtein_sym ref_jaro_winkler_sym).
Defined.


(** The examples of the specification, run with the reference provider:
    two pairs of near duplicates give two clusters; an empty column and a
    single name give none. *)
Example run_pairs :
  Ref.run (VStr <$> ["jon smith"; "john smith"; "jan doe"; "jayne doe"])
  = Ok [["jan doe"; "jayne doe (0.88)"]; ["john smith"; "jon smith (0.95)"]].
Proof. vm_compute. reflexivity. Qed.

Example run_empty_and_single :
  Ref.run [] = Ok [] ∧ Ref.run [VStr "bob"] = Ok [].
Proof. split; vm_compute; reflexivity. Qed.

(** A run in which a name ends in two clusters: "mara" matches "mar" and
    "maraa", which do not match each other. *)
Example run_name_in_two_clusters :
  Ref.run (VStr <$> ["mar"; "mara"; "maraa"])
  = Ok [["mar"; "mara (0.87)"]; ["mara (0.90)"; "maraa"]].
Proof. vm_compute. reflexivity. Qed.

(** C3, as stated, fails in its last part: a chunk that holds a name twice
    has that name scored against itself. The pair is scored 1.00 and no
    record is emitted. *)
Lemma process_chunk_scores_name_with_itself :
  Ref.process_chunk_loop ["bob"; "bob"] default_threshold
  = Ok ([], {[ ("bob", "bob") ]})
  ∧ ("bob", "bob") ∈ ({[ ("bob", "bob") ]} : gset (string * string))
  ∧ Ref.get_similarity_score (VStr "bob") (VStr "bob") = Ok (30000 # 30000)%Q.
Proof.
  split_and!; [vm_compute; reflexivity| |vm_compute; reflexivity].
  by apply elem_of_singleton.
Qed.

Lemma process_chunk_emits_in_range_witness :
  Ref.process_chunk_loop ["jon"; "john"; "bob"] default_threshold
  = Ok ([("john", ["jon (0.86)"]); ("jon", ["john (0.86)"])],
        {[ ("john", "jon"); ("bob", "jon"); ("bob", "john") ]})
  ∧ (NoDup ["jon"; "john"; "bob"] →
     ∀ n, (n, n) ∉ ({[ ("john", "jon"); ("bob", "jon"); ("bob", "john") ]}
                    : gset (string * string)))
  ∧ (∀ k e,
       dd_entry k e [("john", ["jon (0.86)"]); ("jon", ["john (0.86)"])] →
       ∃ n1 n2 s,
         Ref.get_similarity_score (VStr n1) (VStr n2) = Ok s
         ∧ (default_threshold < s)%Q ∧ (s < 1)%Q
         ∧ ((k = n1 ∧ e = match_record n2 s)
            ∨ (k = n2 ∧ e = match_record n1 s))).
Proof.
  assert (Hrun : Ref.process_chunk_loop ["jon"; "john"; "bob"]
                   default_threshold
    = Ok ([("john", ["jon (0.86)"]); ("jon", ["john (0.86)"])],
          {[ ("john", "jon"); ("bob", "jon"); ("bob", "john") ]}))
    by (vm_compute; reflexivity).
  destruct (process_chunk_emits_in_range Ref.soundex Ref.metaphone
              Ref.levenshtein_distance Ref.jaro_winkler_similarity
              _ _ _ Hrun) as (Hrange & _ & Hself).
  split; [exact Hrun|]. split; [exact Hself|].
  intros k e Hke.
  destruct (Hrange k e Hke) as (n1 & n2 & s & _ & Hs & Hlo & Hhi & _ & _ & Hr).
  exists n1, n2, s. exact (conj Hs (conj Hlo (conj Hhi Hr))).
Defined.

Lemma process_chunk_emits_both_witness :
  ∃ pd,
    Ref.process_chunk ["jon"; "john"; "bob"] default_threshold = Ok pd
    ∧ pd = [("john", ["jon (0.86)"]); ("jon", ["john (0.86)"])]
    ∧ (∀ k e, dd_entry k e pd →
         ∃ other s, e = other +:+ " (" +:+ Py.format_2f s +:+ ")"
           ∧ dd_entry other (k +:+ " (" +:+ Py.format_2f s +:+ ")") pd).
Proof.
  eexists. split_and!; [vm_compute; reflexivity|reflexivity|].
  apply (process_chunk_emits_both Ref.soundex Ref.metaphone
           Ref.levenshtein_distance Ref.jaro_winkler_similarity
           ["jon"; "john"; "bob"] default_threshold).
  vm_compute. reflexivity.
Defined.

Lemma unmatched_names_dropped_witness :
  ∃ m,
    Ref.all_potential_duplicates (block_names ["jon"; "bob"; "john"]) = Ok m
    ∧ m = [("john", ["jon (0.86)"]); ("jon", ["john (0.86)"])]
    ∧ (∀ k l, (k, l) ∈ m → l ≠ [])
    ∧ ("bob" ∉ dd_keys m)
    ∧ (∀ c, c ∈ emitted_clusters m → "bob" ∉ c).
Proof.
  eexists. split; [vm_compute; reflexivity|].
  destruct (unmatched_names_dropped Ref.soundex Ref.metaphone
              Ref.levenshtein_distance Ref.jaro_winkler_similarity
              ["jon"; "bob"; "john"]
              [("john", ["jon (0.86)"]); ("jon", ["john (0.86)"])])
    as (_ & Hitem & Hdrop); [vm_compute; reflexivity|].
  assert ("bob" ∉ dd_keys [("john", ["jon (0.86)"]);
                           ("jon", ["john (0.86)"])])
    as Hkey.
  { apply (bool_decide_unpack _). vm_compute. exact I. }
  split_and!; [done| |done|].
  - intros k l Hin. by apply (Hitem k l).
  - apply Hdrop; [done|]. intros k l Hin.
    assert (Forall (λ kv : string * list string, "bob" ∉ kv.2)
              [("john", ["jon (0.86)"]); ("jon", ["john (0.86)"])]) as Hall.
    { apply (bool_decide_unpack _). vm_compute. exact I. }
    by apply (proj1 (Forall_forall _ _) Hall (k, l)).
Defined.

(** * Further properties *)

(** ** Normalizer *)

Lemma first_char_lower s :
  first_char (Py.lower s) = Py.lower_char <$> first_char s.
Proof. by destruct s. Qed.

Lemma last_char_lower s :
  last_char (Py.lower s) = Py.lower_char <$> last_char s.
Proof.
  induction s as [|c s IH]; [done|].
  destruct s as [|d s]; [done|]. exact IH.
Qed.

Lemma first_char_strip s c :
  first_char (Py.strip s) = Some c → Py.is_space c = false.
Proof.
  unfold Py.strip.
  pose proof (PyFacts.rstrip_starts_clean _ (PyFacts.lstrip_starts_clean s)).
  destruct (Py.rstrip (Py.lstrip s)); [done|]. by intros [= <-].
Qed.

Lemma last_char_rstrip s c :
  last_char (Py.rstrip s) = Some c → Py.is_space c = false.
Proof.
  revert c. induction s as [|d s IH]; intros c; [done|].
  cbn [Py.rstrip]. destruct (Py.rstrip s) as [|e r] eqn:Hr.
  - destruct (Py.is_space d) eqn:Hd; [done|]. by intros [= <-].
  - intros Hc. by apply IH.
Qed.

(** X1. What the normalizer returns neither starts nor ends with a
    white-space character; for a value that is not a string it is the
    empty string. *)
Theorem preprocess_name_clean (x : value) :
  (∀ c, first_char (preprocess_name x) = Some c → Py.is_space c = false)
  ∧ (∀ c, last_char (preprocess_name x) = Some c → Py.is_space c = false)
  ∧ ((∀ s, x ≠ VStr s) → preprocess_name x = "").
Proof.
  destruct x as [s| | | |]; simpl; try (split_and!; done).
  split_and!.
  - intros c. rewrite first_char_lower.
    destruct (first_char (Py.strip s)) as [d|] eqn:Hd; [|done].
    intros [= <-]. rewrite PyFacts.is_space_lower_char.
    by eapply first_char_strip.
  - intros c. rewrite last_char_lower.
    destruct (last_char (Py.strip s)) as [d|] eqn:Hd; [|done].
    intros [= <-]. rewrite PyFacts.is_space_lower_char.
    by eapply last_char_rstrip.
  - intros Hs. by destruct (Hs s).
Qed.

(** ** Similarity scorer *)

Section ScorerMore.

Variables soundex metaphone : string → string.
Variable levenshtein_distance : string → string → nat.
Variable jaro_winkler_similarity : string → string → Q.

Local Abbreviation score := (get_similarity_score soundex metaphone
  levenshtein_distance jaro_winkler_similarity).

Lemma get_similarity_score_Ok_iff (a b : value) :
  (∃ s, score a b = Ok s)
  ↔ preprocess_name a ≠ "" ∨ preprocess_name b ≠ "".
Proof.
  split; [|apply get_similarity_score_defined].
  intros [s Hs].
  destruct (decide (preprocess_name a = "")) as [Ha|?]; [|by left].
  destruct (decide (preprocess_name b = "")) as [Hb|?]; [|by right].
  by rewrite get_similarity_score_empty in Hs.
Qed.

Lemma get_similarity_score_Raise (a b : value) e :
  score a b = Raise e → e = ZeroDivisionError.
Proof.
  unfold get_similarity_score.
  destruct (String.length (preprocess_name a)
            `max` String.length (preprocess_name b)); simpl; [|done].
  by intros [= <-].
Qed.

(** X2. The scorer returns a score exactly when one of the two names has a
    non-empty normal form; otherwise it raises [ZeroDivisionError], and it
    raises nothing else. *)
Theorem get_similarity_score_outcome (a b : value) :
  ((∃ s, score a b = Ok s)
   ↔ preprocess_name a ≠ "" ∨ preprocess_name b ≠ "")
  ∧ (score a b = Raise ZeroDivisionError
     ↔ preprocess_name a = "" ∧ preprocess_name b = "")
  ∧ score a b ≠ Raise ValueError.
Proof.
  split_and!.
  - apply get_similarity_score_Ok_iff.
  - split; [|intros [? ?]; by apply get_similarity_score_empty].
    intros Hr.
    destruct (decide (preprocess_name a = "")) as [Ha|Ha];
      [destruct (decide (preprocess_name b = "")) as [Hb|Hb]; [done|]|].
    + destruct (get_similarity_score_defined soundex metaphone
                  levenshtein_distance jaro_winkler_similarity a b)
        as [s Hs]; [by right|congruence].
    + destruct (get_similarity_score_defined soundex metaphone
                  levenshtein_distance jaro_winkler_similarity a b)
        as [s Hs]; [by left|congruence].
  - by intros ?%get_similarity_score_Raise.
Qed.

Lemma of_bool_range (b : bool) : (0 <= Py.of_bool b <= 1)%Q.
Proof. destruct b; simpl; lra. Qed.

Lemma truediv_range (x y : nat) q :
  x ≤ y → Py.truediv x y = Ok q → (0 <= q <= 1)%Q.
Proof.
  intros Hxy. destruct y as [|y]; [done|]. intros [= <-].
  unfold Qle. cbn [Qnum Qden]. lia.
Qed.

Lemma truediv_zero (y : nat) q : Py.truediv 0 y = Ok q → (q == 0)%Q.
Proof. destruct y as [|y]; [done|]. by intros [= <-]. Qed.

Section Bounds.

Hypothesis levenshtein_distance_le : ∀ a b,
  levenshtein_distance a b ≤ String.length a `max` String.length b.
Hypothesis jaro_winkler_similarity_range : ∀ a b,
  (0 <= jaro_winkler_similarity a b <= 1)%Q.

(** X3. When the provider's edit distance is at most the longer length and
    its alignment similarity is between 0 and 1, every score is between 0
    and 1. *)
Theorem get_similarity_score_range (a b : value) s :
  score a b = Ok s → (0 <= s <= 1)%Q.
Proof.
  unfold get_similarity_score. intros Hs.
  apply result_bind_Ok in Hs as (ratio & Hratio & [= <-]).
  apply truediv_range in Hratio; [|apply levenshtein_distance_le].
  pose proof (of_bool_range (bool_decide
    (soundex (preprocess_name a) = soundex (preprocess_name b)))).
  pose proof (of_bool_range (bool_decide
    (metaphone (preprocess_name a) = metaphone (preprocess_name b)))).
  pose proof (jaro_winkler_similarity_range (preprocess_name a)
                (preprocess_name b)).
  split; lra.
Qed.

End Bounds.

Section SameName.

Hypothesis levenshtein_distance_refl : ∀ a, levenshtein_distance a a = 0.
Hypothesis jaro_winkler_similarity_refl : ∀ a,
  a ≠ "" → (jaro_winkler_similarity a a == 1)%Q.

Lemma get_similarity_score_same (a b : value) s :
  preprocess_name a = preprocess_name b →
  score a b = Ok s → (s == 1)%Q.
Proof.
  intros Hab Hs.
  assert (preprocess_name a ≠ "") as Hne.
  { intros Ha. rewrite get_similarity_score_empty in Hs; [done|done|].
    by rewrite <-Hab. }
  revert Hs. unfold get_similarity_score. rewrite <-Hab.
  rewrite levenshtein_distance_refl, !bool_decide_eq_true_2 by done.
  intros Hs. apply result_bind_Ok in Hs as (ratio & Hratio & [= <-]).
  apply truediv_zero in Hratio.
  rewrite Hratio, (jaro_winkler_similarity_refl _ Hne). by simpl.
Qed.

(** X4. When the provider gives distance 0 and similarity 1 to a name and
    itself, two names with the same non-empty normal form score exactly
    1.00, and the chunk comparator emits no record between two such
    names: every entry it lists for a name is the record of a name with
    another normal form. *)
Theorem process_chunk_skips_same_name chunk threshold st :
  process_chunk_loop soundex metaphone levenshtein_distance
    jaro_winkler_similarity chunk threshold = Ok st →
  (∀ a b s,
     preprocess_name (VStr a) = preprocess_name (VStr b) →
     score (VStr a) (VStr b) = Ok s → (s == 1)%Q)
  ∧ (∀ k e, dd_entry k e st.1 →
       ∃ other s, e = match_record other s
         ∧ preprocess_name (VStr other) ≠ preprocess_name (VStr k)).
Proof.
  intros Hrun. split.
  - intros a b s. apply get_similarity_score_same.
  - intros k e Hke.
    pose proof (process_chunk_loop_inv _ _ _ _ _ _ _ Hrun)
      as (_ & _ & Hfrom & _).
    destruct (Hfrom k e Hke) as (n1 & n2 & s & _ & (Hs & _ & Hlt) & Hrec).
    assert (preprocess_name (VStr n1) ≠ preprocess_name (VStr n2)) as Hne.
    { intros Heq. apply (get_similarity_score_same _ _ _ Heq) in Hs.
      rewrite Hs in Hlt. by apply Qlt_irrefl in Hlt. }
    destruct Hrec as [[-> ->]|[-> ->]]; [by exists n2, s|].
    exists n1, s. split; [done|]. by apply not_eq_sym.
Qed.

End SameName.

End ScorerMore.

(** ** The reference provider, continued *)

Lemma ref_levenshtein_le a b :
  Ref.levenshtein_distance a b ≤ String.length a `max` String.length b.
Proof.
  revert b. induction a as [|x a IH]; intros [|y b]; simpl String.length;
    try (simpl; lia).
  rewrite ref_levenshtein_cons. specialize (IH b).
  destruct (bool_decide (x = y)); lia.
Qed.

Lemma ref_levenshtein_refl a : Ref.levenshtein_distance a a = 0.
Proof.
  induction a as [|x a IH]; [done|].
  rewrite ref_levenshtein_cons, IH, bool_decide_eq_true_2 by done. lia.
Qed.

Lemma ref_jaro_winkler_range a b :
  (0 <= Ref.jaro_winkler_similarity a b <= 1)%Q.
Proof.
  unfold Ref.jaro_winkler_similarity.
  pose proof (ref_levenshtein_le a b) as Hle.
  destruct (String.length a `max` String.length b) as [|n]; [done|].
  rewrite Qred_correct.
  set (l := Ref.levenshtein_distance a b) in *.
  set (p := Ref.common_prefix a b `min` 4).
  assert (0 <= Z.of_nat l # Pos.of_succ_nat n <= 1)%Q as Hl.
  { unfold Qle. cbn [Qnum Qden]. lia. }
  assert (0 <= Z.of_nat p # 10 <= 1)%Q as Hp.
  { unfold Qle. cbn [Qnum Qden]. lia. }
  split; nra.
Qed.

Lemma ref_jaro_winkler_refl a :
  a ≠ "" → (Ref.jaro_winkler_similarity a a == 1)%Q.
Proof.
  intros Ha. unfold Ref.jaro_winkler_similarity.
  rewrite ref_levenshtein_refl.
  destruct (String.length a `max` String.length a) as [|n] eqn:Hn.
  { by destruct a. }
  rewrite Qred_correct.
  assert (0 # Pos.of_succ_nat n == 0)%Q as -> by done.
  ring.
Qed.

Lemma get_similarity_score_range_witness :
  Ref.get_similarity_score (VStr "Jon") (VStr "john") = Ok (173000 # 200000)%Q
  ∧ (0 <= 173000 # 200000 <= 1)%Q.
Proof.
  assert (Hs : Ref.get_similarity_score (VStr "Jon") (VStr "john")
               = Ok (173000 # 200000)%Q) by (vm_compute; reflexivity).
  split; [exact Hs|].
  exact (get_similarity_score_range Ref.soundex Ref.metaphone
           Ref.levenshtein_distance Ref.jaro_winkler_similarity
           ref_levenshtein_le ref_jaro_winkler_range _ _ _ Hs).
Defined.

Lemma process_chunk_skips_same_name_witness :
  Ref.process_chunk_loop ["jon"; "john"; "jon"] default_threshold
  = Ok ([("john", ["jon (0.86)"]); ("jon", ["john (0.86)"])],
        {[ ("john", "jon"); ("jon", "jon") ]})
  ∧ ∀ k e,
      dd_entry k e [("john", ["jon (0.86)"]); ("jon", ["john (0.86)"])] →
      ∃ other s, e = match_record other s
        ∧ preprocess_name (VStr other) ≠ preprocess_name (VStr k).
Proof.
  assert (Hrun : Ref.process_chunk_loop ["jon"; "john"; "jon"]
                   default_threshold
    = Ok ([("john", ["jon (0.86)"]); ("jon", ["john (0.86)"])],
          {[ ("john", "jon"); ("jon", "jon") ]}))
    by (vm_compute; reflexivity).
  split; [exact Hrun|].
  exact (proj2 (process_chunk_skips_same_name Ref.soundex Ref.metaphone
           Ref.levenshtein_distance Ref.jaro_winkler_similarity
           ref_levenshtein_refl ref_jaro_winkler_refl _ _ _ Hrun)).
Defined.

(** ** Loops that may raise *)

Lemma foldM_total {S X} (f : S → X → result S) (xs : list X) :
  (∀ x s, x ∈ xs → ∃ s', f s x = Ok s') → ∀ s, ∃ s', foldM f xs s = Ok s'.
Proof.
  induction xs as [|x xs IH]; intros Hf s; simpl; [by eexists|].
  destruct (Hf x s) as [s1 ->]; [left|]. simpl.
  apply IH. intros y s2 Hy. apply Hf. by right.
Qed.

Lemma foldM_Raise {S X} (f : S → X → result S) (xs : list X) s e :
  foldM f xs s = Raise e → ∃ s0 x, x ∈ xs ∧ f s0 x = Raise e.
Proof.
  revert s. induction xs as [|x xs IH]; intros s; simpl; [done|].
  destruct (f s x) as [s1|e1] eqn:Hf; simpl.
  - intros (s0 & y & Hy & Hr)%IH. exists s0, y. split; [by right|done].
  - intros [= <-]. exists s, x. split; [left|done].
Qed.

Lemma mapM_total {X Y} (f : X → result Y) (xs : list X) :
  (∀ x, x ∈ xs → ∃ y, f x = Ok y) → ∃ ys, mapM f xs = Ok ys.
Proof.
  induction xs as [|x xs IH]; intros Hf; simpl; [by eexists|].
  destruct (Hf x) as [y ->]; [left|]. simpl.
  destruct IH as [ys ->]; [|by eexists].
  intros z Hz. apply Hf. by right.
Qed.

Lemma mapM_Raise {X Y} (f : X → result Y) (xs : list X) e :
  mapM f xs = Raise e → ∃ x, x ∈ xs ∧ f x = Raise e.
Proof.
  induction xs as [|x xs IH]; simpl; [done|].
  destruct (f x) as [y|e1] eqn:Hf; simpl.
  - destruct (mapM f xs) as [ys|e2]; simpl; [done|].
    intros [= <-]. destruct IH as (z & Hz & Hr); [done|].
    exists z. split; [by right|done].
  - intros [= <-]. exists x. split; [left|done].
Qed.

Lemma mapM_Ok_elem {X Y} (f : X → result Y) (xs : list X) ys x :
  mapM f xs = Ok ys → x ∈ xs → ∃ y, f x = Ok y.
Proof.
  intros HF%mapM_Ok (i & Hi)%list_elem_of_lookup.
  destruct (Forall2_lookup_l _ _ _ _ _ HF Hi) as (y & _ & Hy). eauto.
Qed.

(** ** Lists *)

Lemma combinations2_cons_elem {A} (x : A) l a b :
  (a, b) ∈ combinations2 (x :: l) ↔ (a = x ∧ b ∈ l) ∨ (a, b) ∈ combinations2 l.
Proof.
  simpl. rewrite elem_of_app, list_elem_of_fmap. split.
  - intros [(b' & [= -> ->] & Hb)|?]; auto.
  - intros [[-> Hb]|?]; [left; by exists b|by right].
Qed.

Lemma combinations2_filter {A} (P : A → Prop) `{!∀ x, Decision (P x)}
    (l : list A) a b :
  (a, b) ∈ combinations2 l → P a → P b → 2 ≤ length (filter P l).
Proof.
  induction l as [|x l IH]; [by intros ?%elem_of_nil|].
  rewrite combinations2_cons_elem, filter_cons.
  intros [[-> Hb]|Hab] Ha Hb'.
  - rewrite decide_True by done. simpl.
    assert (b ∈ filter P l) as Hin by by apply list_elem_of_filter.
    destruct (filter P l); [by apply elem_of_nil in Hin|simpl; lia].
  - specialize (IH Hab Ha Hb'). case_decide; simpl; lia.
Qed.

Lemma filter_combinations2 {A} (P : A → Prop) `{!∀ x, Decision (P x)}
    (l : list A) :
  2 ≤ length (filter P l) → ∃ a b, (a, b) ∈ combinations2 l ∧ P a ∧ P b.
Proof.
  induction l as [|x l IH]; [simpl; lia|].
  rewrite filter_cons. case_decide as Hx; simpl.
  - intros Hlen. destruct (filter P l) as [|b l'] eqn:Hf; [simpl in *; lia|].
    assert (b ∈ filter P l) as [Hb Hin]%list_elem_of_filter
      by (rewrite Hf; left).
    exists x, b. split; [|done]. apply combinations2_cons_elem. auto.
  - intros (a & b & Hab & ? & ?)%IH. exists a, b.
    split; [|done]. apply combinations2_cons_elem. auto.
Qed.

Lemma sublist_filter_length {A} (P : A → Prop) `{!∀ x, Decision (P x)}
    (l1 l2 : list A) :
  l1 `sublist_of` l2 → length (filter P l1) ≤ length (filter P l2).
Proof.
  induction 1 as [|x l1 l2 _ IH|x l1 l2 _ IH]; [done|..];
    rewrite ?filter_cons; repeat case_decide; simpl; lia.
Qed.

Lemma filter_Forall_id {A} (P : A → Prop) `{!∀ x, Decision (P x)}
    (l : list A) :
  Forall P l → filter P l = l.
Proof.
  induction 1 as [|x l Hx _ IH]; [done|].
  rewrite filter_cons, decide_True by done. by rewrite IH.
Qed.

Lemma slice_sublist {A} (l : list A) i j : slice l i j `sublist_of` l.
Proof. unfold slice. etrans; [apply sublist_take|apply sublist_drop]. Qed.

(** ** Chunk comparator, continued *)

Section ComparatorMore.

Variables soundex metaphone : string → string.
Variable levenshtein_distance : string → string → nat.
Variable jaro_winkler_similarity : string → string → Q.

Local Abbreviation score := (get_similarity_score soundex metaphone
  levenshtein_distance jaro_winkler_similarity).
Local Abbreviation pair_step := (process_pair soundex metaphone
  levenshtein_distance jaro_winkler_similarity).
Local Abbreviation chunk_loop := (process_chunk_loop soundex metaphone
  levenshtein_distance jaro_winkler_similarity).
Local Abbreviation chunk_map := (process_chunk soundex metaphone
  levenshtein_distance jaro_winkler_similarity).
Local Abbreviation block_map := (process_block_with_threads soundex
  metaphone levenshtein_distance jaro_winkler_similarity).
Local Abbreviation global_map := (all_potential_duplicates soundex
  metaphone levenshtein_distance jaro_winkler_similarity).
Local Abbreviation record := (is_record soundex metaphone
  levenshtein_distance jaro_winkler_similarity).

Implicit Types (chunk names : list string) (threshold : Q).

Lemma process_pair_cases threshold st p st' :
  pair_step threshold st p = Ok st' →
  (order_pair p.1 p.2 ∈ st.2 ∧ st' = st)
  ∨ (∃ s, (order_pair p.1 p.2 ∉ st.2)
       ∧ score (VStr (order_pair p.1 p.2).1) (VStr (order_pair p.1 p.2).2)
         = Ok s
       ∧ st'.2 = {[ order_pair p.1 p.2 ]} ∪ st.2
       ∧ st'.1 = if Py.ltb threshold s && Py.ltb s 1
                 then dd_append (order_pair p.1 p.2).2
                        (match_record (order_pair p.1 p.2).1 s)
                        (dd_append (order_pair p.1 p.2).1
                           (match_record (order_pair p.1 p.2).2 s) st.1)
                 else st.1).
Proof.
  destruct st as [pd seen]. unfold process_pair.
  destruct (order_pair p.1 p.2) as [n1 n2]. simpl.
  case_decide as Hin.
  - intros [= <-]. by left.
  - intros (s & Hs & [= <-])%result_bind_Ok. right. by exists s.
Qed.

Lemma process_pair_Raise threshold st p e :
  pair_step threshold st p = Raise e → e = ZeroDivisionError.
Proof.
  destruct st as [pd seen]. unfold process_pair.
  destruct (order_pair p.1 p.2) as [n1 n2]. case_decide; [done|].
  destruct (score (VStr n1) (VStr n2)) as [s|e'] eqn:Hs; simpl; [done|].
  intros [= <-]. by eapply get_similarity_score_Raise.
Qed.

Lemma process_pair_returns threshold st p :
  preprocess_name (VStr p.1) ≠ "" ∨ preprocess_name (VStr p.2) ≠ "" →
  ∃ st', pair_step threshold st p = Ok st'.
Proof.
  intros Hne. destruct st as [pd seen]. unfold process_pair.
  destruct (order_pair_cases p.1 p.2) as [Hp|Hp]; rewrite Hp;
    (case_decide; [by eexists|]).
  - destruct (get_similarity_score_defined soundex metaphone
                levenshtein_distance jaro_winkler_similarity
                (VStr p.1) (VStr p.2) Hne) as [s ->]. by eexists.
  - destruct (get_similarity_score_defined soundex metaphone
                levenshtein_distance jaro_winkler_similarity
                (VStr p.2) (VStr p.1)) as [s ->]; [tauto|]. by eexists.
Qed.

Lemma process_chunk_loop_scored chunk threshold st n1 n2 :
  chunk_loop chunk threshold = Ok st → (n1, n2) ∈ st.2 →
  ∃ s, score (VStr n1) (VStr n2) = Ok s.
Proof.
  intros Hrun. revert n1 n2.
  apply (foldM_ind (pair_step threshold)
    (λ _ st, ∀ n1 n2, (n1, n2) ∈ st.2 → ∃ s, score (VStr n1) (VStr n2) = Ok s))
    with (xs := combinations2 chunk) (done := []) (s := ([], ∅));
    [|by intros n1 n2 ?%not_elem_of_empty|exact Hrun].
  intros _ p s s' IH [[_ ->]|(q & _ & Hq & Hseen & _)]%process_pair_cases;
    [done|].
  intros n1 n2. rewrite Hseen, elem_of_union, elem_of_singleton.
  intros [Heq|?]; [|by auto]. rewrite <-Heq in Hq. eauto.
Qed.

Lemma process_chunk_loop_NoDup chunk threshold st :
  chunk_loop chunk threshold = Ok st → NoDup (dd_keys st.1).
Proof.
  intros Hrun.
  apply (foldM_ind (pair_step threshold) (λ _ st, NoDup (dd_keys st.1)))
    with (xs := combinations2 chunk) (done := []) (s := ([], ∅));
    [|constructor|exact Hrun].
  intros _ p s s' IH [[_ ->]|(q & _ & _ & _ & ->)]%process_pair_cases;
    [done|].
  destruct (_ && _); [|done]. by repeat apply dd_extend_NoDup.
Qed.

(** A name whose normal form is the empty string. *)
Local Abbreviation blank := (λ n : string, preprocess_name (VStr n) = "").

Lemma process_chunk_loop_returns chunk threshold :
  length (filter blank chunk) ≤ 1 → ∃ st, chunk_loop chunk threshold = Ok st.
Proof.
  intros Hlen. apply foldM_total. intros [a b] st Hab.
  apply process_pair_returns. simpl.
  destruct (decide (preprocess_name (VStr a) = "")) as [Ha|?]; [|by left].
  destruct (decide (preprocess_name (VStr b) = "")) as [Hb|?]; [|by right].
  pose proof (combinations2_filter blank chunk a b Hab Ha Hb). lia.
Qed.

Lemma process_chunk_loop_Raise chunk threshold e :
  chunk_loop chunk threshold = Raise e → e = ZeroDivisionError.
Proof.
  intros (s0 & p & _ & Hp)%foldM_Raise. by eapply process_pair_Raise.
Qed.

Lemma process_chunk_loop_raises chunk threshold :
  2 ≤ length (filter blank chunk) →
  chunk_loop chunk threshold = Raise ZeroDivisionError.
Proof.
  intros (a & b & Hab & Ha & Hb)%filter_combinations2.
  destruct (chunk_loop chunk threshold) as [st|e] eqn:Hrun.
  - exfalso.
    pose proof (process_chunk_loop_inv _ _ _ _ _ _ _ Hrun)
      as (_ & Hseen & _).
    assert (order_pair a b ∈ st.2) as Hin.
    { apply Hseen. by exists (a, b). }
    destruct (order_pair a b) as [n1 n2] eqn:Hp.
    destruct (process_chunk_loop_scored _ _ _ _ _ Hrun Hin) as [s Hs].
    destruct (order_pair_cases a b) as [Hc|Hc]; rewrite Hc in Hp;
      injection Hp as <- <-;
      by rewrite get_similarity_score_empty in Hs.
  - f_equal. by eapply process_chunk_loop_Raise.
Qed.

Lemma process_chunk_returns chunk threshold :
  length (filter blank chunk) ≤ 1 → ∃ pd, chunk_map chunk threshold = Ok pd.
Proof.
  intros [[pd seen] Hst]%(process_chunk_loop_returns _ threshold).
  exists pd. apply process_chunk_Ok. by exists seen.
Qed.

Lemma process_chunk_Raise chunk threshold e :
  chunk_map chunk threshold = Raise e → e = ZeroDivisionError.
Proof.
  unfold process_chunk.
  destruct (chunk_loop chunk threshold) as [st|e'] eqn:Hrun; [done|].
  intros [= <-]. by eapply process_chunk_loop_Raise.
Qed.

Lemma process_chunk_raises chunk threshold :
  2 ≤ length (filter blank chunk) →
  chunk_map chunk threshold = Raise ZeroDivisionError.
Proof.
  intros Hlen. unfold process_chunk.
  by rewrite process_chunk_loop_raises.
Qed.

(** X5. The chunk comparator returns a map when at most one name of the
    chunk has an empty normal form, and raises [ZeroDivisionError] when two
    or more have; it raises no other exception. In particular a chunk of
    fewer than two names always gives a map. *)
Theorem process_chunk_outcome chunk threshold :
  (length (filter (λ n, preprocess_name (VStr n) = "") chunk) ≤ 1 →
   ∃ pd, chunk_map chunk threshold = Ok pd)
  ∧ (2 ≤ length (filter (λ n, preprocess_name (VStr n) = "") chunk) →
     chunk_map chunk threshold = Raise ZeroDivisionError)
  ∧ (length chunk ≤ 1 → chunk_map chunk threshold = Ok []).
Proof.
  split_and!.
  - apply process_chunk_returns.
  - apply process_chunk_raises.
  - destruct chunk as [|a [|b chunk]]; simpl; [done|done|lia].
Qed.

(** X6. A threshold of 1.00 or more leaves nothing to report: the map
    that the chunk comparator returns is empty. *)
Theorem process_chunk_threshold_ge_1 chunk threshold pd :
  (1 <= threshold)%Q →
  process_chunk soundex metaphone levenshtein_distance
    jaro_winkler_similarity chunk threshold = Ok pd →
  pd = [].
Proof.
  intros Hth (seen & Hrun)%process_chunk_Ok.
  pose proof (process_chunk_loop_inv _ _ _ _ _ _ _ Hrun)
    as (Hne & _ & Hfrom & _). simpl in *.
  destruct pd as [|[k l] pd]; [done|]. exfalso.
  apply Forall_cons in Hne as [Hl _]. simpl in Hl.
  destruct l as [|e l]; [done|].
  destruct (Hfrom k e) as (n1 & n2 & s & _ & (_ & Hlo & Hhi) & _).
  { exists (e :: l). split; left. }
  lra.
Qed.

(** X7. Raising the threshold only removes records: on the same chunk,
    every entry of the map returned for the higher threshold is an entry
    of the map returned for the lower one. *)
Theorem process_chunk_threshold_mono chunk threshold1 threshold2 pd1 pd2 :
  (threshold1 <= threshold2)%Q →
  chunk_map chunk threshold1 = Ok pd1 →
  chunk_map chunk threshold2 = Ok pd2 →
  ∀ k e, dd_entry k e pd2 → dd_entry k e pd1.
Proof.
  intros Hth (seen1 & Hrun1)%process_chunk_Ok (seen2 & Hrun2)%process_chunk_Ok.
  pose proof (process_chunk_loop_inv _ _ _ _ _ _ _ Hrun1)
    as (_ & Hseen1 & _ & Hto).
  pose proof (process_chunk_loop_inv _ _ _ _ _ _ _ Hrun2)
    as (_ & Hseen2 & Hfrom & _).
  simpl in *. intros k e Hke.
  destruct (Hfrom k e Hke) as (n1 & n2 & s & Hin & (Hs & Hlo & Hhi) & Hrec).
  apply Hseen2, Hseen1 in Hin.
  destruct (Hto n1 n2 s Hin) as [H1 H2].
  { split_and!; [done| |done]. lra. }
  by destruct Hrec as [[-> ->]|[-> ->]].
Qed.

End ComparatorMore.

(** ** Merging *)

Section MergeFacts.

Context {K V : Type} `{EqDecision K}.
Implicit Types (k : K) (vs l : list V) (d r : list (K * list V)).

Lemma dd_extend_fresh k vs d :
  k ∉ dd_keys d → dd_extend k vs d = d ++ [(k, vs)].
Proof.
  unfold dd_keys. induction d as [|[k0 l0] d IH]; csimpl; [done|].
  intros [Hne Hk]%not_elem_of_cons.
  rewrite decide_False by done. by rewrite IH.
Qed.

Lemma merge_result_fresh d r :
  NoDup (dd_keys d ++ dd_keys r) → merge_result d r = d ++ r.
Proof.
  unfold merge_result. revert d.
  induction r as [|[k l] r IH]; intros d; csimpl.
  - intros _. by rewrite app_nil_r.
  - intros Hnd. apply NoDup_app in Hnd as (Hd & Hdr & [Hk Hr]%NoDup_cons).
    rewrite dd_extend_fresh.
    + rewrite IH; [by rewrite <-app_assoc|].
      unfold dd_keys in *. rewrite fmap_app. csimpl.
      rewrite <-app_assoc. apply NoDup_app. split_and!; [done| |].
      * intros x Hx. exact (Hdr x Hx).
      * simpl. by constructor.
    + intros Hin. apply (Hdr k Hin). left.
Qed.

Lemma merge_result_nil_l r : NoDup (dd_keys r) → merge_result [] r = r.
Proof. intros Hr. by rewrite merge_result_fresh. Qed.

Lemma merge_result_NoDup d r :
  NoDup (dd_keys d) → NoDup (dd_keys (merge_result d r)).
Proof.
  unfold merge_result. revert d.
  induction r as [|[k l] r IH]; intros d Hd; simpl; [done|].
  by apply IH, dd_extend_NoDup.
Qed.

Lemma merge_all_NoDup d (rs : list (list (K * list V))) :
  NoDup (dd_keys d) → NoDup (dd_keys (fold_left merge_result rs d)).
Proof.
  revert d. induction rs as [|r rs IH]; intros d Hd; simpl; [done|].
  by apply IH, merge_result_NoDup.
Qed.

Lemma merge_result_lookup_aux k d r :
  NoDup (dd_keys r) →
  dd_lookup k (merge_result d r)
  = match dd_lookup k r with
    | None => dd_lookup k d
    | Some l => Some (default [] (dd_lookup k d) ++ l)
    end.
Proof.
  unfold merge_result. revert d.
  induction r as [|[k1 l1] r IH]; intros d; csimpl; [done|].
  intros [Hk1 Hr]%NoDup_cons. rewrite IH by done.
  rewrite dd_lookup_extend.
  destruct (decide (k = k1)) as [->|Hne].
  - by apply dd_lookup_None in Hk1 as ->.
  - done.
Qed.

(** X8. Merging a sub-result into a match map extends and never replaces:
    the list of a key after the merge is its list before followed by its
    list in the sub-result, keys keep their order of first insertion and
    stay pairwise distinct. *)
Theorem merge_result_lookup k d r :
  NoDup (dd_keys d) → NoDup (dd_keys r) →
  dd_lookup k (merge_result d r)
  = match dd_lookup k r with
    | None => dd_lookup k d
    | Some l => Some (default [] (dd_lookup k d) ++ l)
    end
  ∧ NoDup (dd_keys (merge_result d r))
  ∧ dd_keys d `prefix_of` dd_keys (merge_result d r).
Proof.
  intros Hd Hr. split_and!.
  - by apply merge_result_lookup_aux.
  - by apply merge_result_NoDup.
  - clear Hd Hr. unfold merge_result. revert d.
    induction r as [|[k1 l1] r IH]; intros d; simpl; [done|].
    etrans; [|apply IH]. rewrite dd_keys_extend.
    case_decide; [done|]. by apply prefix_app_r.
Qed.

End MergeFacts.

(** ** Orchestrator, continued *)

Lemma range_loop_ge fuel i stop step :
  stop ≤ i → range_loop fuel i stop step = [].
Proof. intros ?. destruct fuel; simpl; [done|]. by rewrite decide_False by lia. Qed.

Lemma block_chunks_slices (names : list string) chunk_size :
  (0 < chunk_size)%Z →
  ∃ chunks, block_chunks names chunk_size = Ok chunks
    ∧ ∀ c, c ∈ chunks →
        ∃ i, c = slice names i (i + Z.to_nat chunk_size).
Proof.
  intros Hpos. unfold block_chunks, py_range.
  rewrite decide_False by lia. rewrite decide_False by lia. simpl.
  eexists. split; [done|].
  intros c (i & -> & _)%list_elem_of_fmap. by exists i.
Qed.

Lemma block_chunks_single (names : list string) chunk_size :
  0 < length names → (Z.of_nat (length names) ≤ chunk_size)%Z →
  block_chunks names chunk_size = Ok [names].
Proof.
  intros Hlen Hcs. unfold block_chunks, py_range.
  rewrite decide_False by lia. rewrite decide_False by lia. simpl.
  destruct (length names) as [|n] eqn:Hn; [lia|]. simpl.
  rewrite range_loop_ge by lia.
  unfold slice. rewrite drop_0, take_ge; [done|lia].
Qed.

Lemma block_chunks_first (names : list string) chunk_size :
  0 < length names → (0 < chunk_size)%Z →
  ∃ chunks, block_chunks names chunk_size
            = Ok (take (Z.to_nat chunk_size) names :: chunks).
Proof.
  intros Hlen Hcs. unfold block_chunks, py_range.
  rewrite decide_False by lia. rewrite decide_False by lia. simpl.
  destruct (length names) as [|n] eqn:Hn; [lia|]. simpl.
  eexists. do 2 f_equal.
  unfold slice. rewrite drop_0. f_equal. lia.
Qed.

Section OrchestratorMore.

Variables soundex metaphone : string → string.
Variable levenshtein_distance : string → string → nat.
Variable jaro_winkler_similarity : string → string → Q.

Local Abbreviation chunk_map := (process_chunk soundex metaphone
  levenshtein_distance jaro_winkler_similarity).
Local Abbreviation block_map := (process_block_with_threads soundex
  metaphone levenshtein_distance jaro_winkler_similarity).
Local Abbreviation global_map := (all_potential_duplicates soundex
  metaphone levenshtein_distance jaro_winkler_similarity).
Local Abbreviation record := (is_record soundex metaphone
  levenshtein_distance jaro_winkler_similarity).
Local Abbreviation blank := (λ n : string, preprocess_name (VStr n) = "").

Implicit Types (chunk names : list string) (threshold : Q).

Lemma process_chunk_NoDup chunk threshold pd :
  chunk_map chunk threshold = Ok pd → NoDup (dd_keys pd).
Proof.
  intros (seen & Hrun)%process_chunk_Ok.
  by apply process_chunk_loop_NoDup in Hrun.
Qed.

(** X9. A chunk size of 0 makes the block worker raise [ValueError]; a
    negative chunk size makes it return the empty map, whatever the
    names: no pair is compared. *)
Theorem process_block_bad_chunk_size names threshold :
  process_block_with_threads soundex metaphone levenshtein_distance
    jaro_winkler_similarity names threshold 0 = Raise ValueError
  ∧ ∀ chunk_size, (chunk_size < 0)%Z →
      process_block_with_threads soundex metaphone levenshtein_distance
        jaro_winkler_similarity names threshold chunk_size = Ok [].
Proof.
  split; [done|]. intros cs Hcs.
  unfold process_block_with_threads, block_chunks, py_range.
  rewrite decide_False by lia. by rewrite decide_True by lia.
Qed.

(** X10. A block that fits in one chunk is handled as that chunk: for a
    positive chunk size that is at least the number of names, the block
    worker returns what the chunk comparator returns on the whole block,
    or raises what it raises. *)
Theorem process_block_single_chunk names threshold chunk_size :
  (0 < chunk_size)%Z → (Z.of_nat (length names) ≤ chunk_size)%Z →
  process_block_with_threads soundex metaphone levenshtein_distance
    jaro_winkler_similarity names threshold chunk_size
  = process_chunk soundex metaphone levenshtein_distance
      jaro_winkler_similarity names threshold.
Proof.
  intros Hpos Hlen. destruct (decide (length names = 0)) as [Hnil|Hne].
  - apply length_zero_iff_nil in Hnil as ->.
    unfold process_block_with_threads, block_chunks, py_range.
    rewrite decide_False by lia. by rewrite decide_False by lia.
  - unfold process_block_with_threads.
    rewrite block_chunks_single by lia. simpl.
    destruct (chunk_map names threshold) as [pd|e] eqn:Hpd; simpl; [|done].
    f_equal. apply merge_result_nil_l. by eapply process_chunk_NoDup.
Qed.

(** X11. Names are only compared inside a chunk: every entry that the
    block worker returns for a name is a record emitted from one chunk of
    the block, and the name and the other name of the record are both in
    that chunk. *)
Theorem process_block_same_chunk names threshold chunk_size pd :
  block_map names threshold chunk_size = Ok pd →
  ∃ chunks, block_chunks names chunk_size = Ok chunks
    ∧ ∀ k e, dd_entry k e pd →
        ∃ chunk other s,
          chunk ∈ chunks ∧ e = match_record other s
          ∧ k ∈ chunk ∧ other ∈ chunk.
Proof.
  unfold process_block_with_threads. intros Hrun.
  apply result_bind_Ok in Hrun as (chunks & Hchunks & Hrun).
  apply result_bind_Ok in Hrun as (results & Hres & [= <-]).
  exists chunks. split; [done|].
  intros k e [?%dd_entry_nil|(r & Hr & Hke)]%dd_entry_merge_all; [done|].
  destruct (mapM_elem _ _ _ _ Hres Hr) as (chunk & Hin & Hchunk).
  apply process_chunk_records in Hchunk as [_ Hrec].
  destruct (Hrec k e Hke) as (other & s & -> & Hk & Ho & _).
  by exists chunk, other, s.
Qed.

(** X12. Names are only compared inside a block: every entry of the match
    map of a run is the record of a name of the input with the same first
    character as the key. *)
Theorem all_potential_duplicates_same_block names m :
  global_map (block_names names) = Ok m →
  ∀ k e, dd_entry k e m →
    ∃ other s, e = match_record other s
      ∧ k ∈ names ∧ other ∈ names
      ∧ first_letter other = first_letter k.
Proof.
  intros Hrun k e Hke.
  apply all_potential_duplicates_records in Hrun as [_ Hrec].
  destruct (Hrec k e Hke) as (block & Hblock & other & s & -> & Hk & Ho & _).
  unfold dd_values in Hblock.
  apply list_elem_of_fmap in Hblock as ([key l] & -> & Hin).
  apply block_names_item in Hin as [-> _]. simpl in *.
  apply list_elem_of_filter in Hk as [Hk1 Hk2].
  apply list_elem_of_filter in Ho as [Ho1 Ho2].
  exists other, s. split_and!; [done|done|done|congruence].
Qed.

Lemma process_block_returns names threshold chunk_size :
  (0 < chunk_size)%Z → length (filter blank names) ≤ 1 →
  ∃ pd, block_map names threshold chunk_size = Ok pd.
Proof.
  intros Hpos Hlen. unfold process_block_with_threads.
  destruct (block_chunks_slices names chunk_size Hpos)
    as (chunks & -> & Hslices). simpl.
  destruct (mapM_total (λ chunk, chunk_map chunk threshold) chunks)
    as [results ->]; [|by eexists].
  intros c (i & ->)%Hslices. apply process_chunk_returns.
  etrans; [|exact Hlen]. apply sublist_filter_length, slice_sublist.
Qed.

Lemma process_block_Raise names threshold chunk_size e :
  (0 < chunk_size)%Z →
  block_map names threshold chunk_size = Raise e → e = ZeroDivisionError.
Proof.
  intros Hpos. unfold process_block_with_threads.
  destruct (block_chunks_slices names chunk_size Hpos)
    as (chunks & -> & _). simpl.
  destruct (mapM _ chunks) as [results|e'] eqn:Hres; simpl; [done|].
  intros [= <-]. apply mapM_Raise in Hres as (c & _ & Hc).
  by eapply process_chunk_Raise.
Qed.

Lemma process_block_raises names threshold chunk_size :
  (2 ≤ chunk_size)%Z → Forall blank names → 2 ≤ length names →
  block_map names threshold chunk_size = Raise ZeroDivisionError.
Proof.
  intros Hcs Hall Hlen. unfold process_block_with_threads.
  destruct (block_chunks_first names chunk_size) as [chunks ->]; [lia..|].
  simpl. rewrite process_chunk_raises; [done|].
  rewrite filter_Forall_id by by apply Forall_take.
  rewrite length_take. lia.
Qed.

Lemma all_potential_duplicates_returns names :
  length (filter blank names) ≤ 1 →
  ∃ m, global_map (block_names names) = Ok m.
Proof.
  intros Hlen. unfold all_potential_duplicates.
  destruct (mapM_total (λ names, block_map names default_threshold
                                   default_chunk_size)
              (dd_values (block_names names))) as [results ->];
    [|by eexists].
  intros block Hblock. apply process_block_returns; [done|].
  etrans; [|exact Hlen]. apply sublist_filter_length.
  unfold dd_values in Hblock.
  apply list_elem_of_fmap in Hblock as ([key l] & -> & Hin).
  apply block_names_item in Hin as [-> _]. apply sublist_filter.
Qed.

Lemma all_potential_duplicates_Raise blocks e :
  global_map blocks = Raise e → e = ZeroDivisionError.
Proof.
  unfold all_potential_duplicates.
  destruct (mapM _ (dd_values blocks)) as [results|e'] eqn:Hres; simpl;
    [done|].
  intros [= <-]. apply mapM_Raise in Hres as (c & _ & Hc).
  eapply process_block_Raise; [|exact Hc]. done.
Qed.

Lemma first_letter_empty n : first_letter n = "" ↔ n = "".
Proof. by destruct n. Qed.

Lemma all_potential_duplicates_raises names :
  2 ≤ length (filter (λ n, first_letter n = "") names) →
  global_map (block_names names) = Raise ZeroDivisionError.
Proof.
  intros Hlen.
  set (block := filter (λ n, first_letter n = "") names) in *.
  assert (block ∈ dd_values (block_names names)) as Hblock.
  { unfold dd_values. apply list_elem_of_fmap. exists ("", block).
    split; [done|]. apply block_names_item. split; [done|].
    intros Hnil. rewrite Hnil in Hlen. simpl in Hlen. lia. }
  assert (block_map block default_threshold default_chunk_size
          = Raise ZeroDivisionError) as Hraise.
  { apply process_block_raises; [done| |done].
    apply Forall_forall. intros n [Hn _]%list_elem_of_filter.
    by apply first_letter_empty in Hn as ->. }
  destruct (global_map (block_names names)) as [m|e] eqn:Hrun.
  - exfalso. unfold all_potential_duplicates in Hrun.
    apply result_bind_Ok in Hrun as (results & Hres & _).
    destruct (mapM_Ok_elem _ _ _ _ Hres Hblock) as [y Hy]. congruence.
  - f_equal. by eapply all_potential_duplicates_Raise.
Qed.

Lemma filter_blank_fmap (column : list value) :
  length (filter blank (preprocess_name <$> column))
  = length (empty_names column).
Proof.
  unfold empty_names. induction column as [|v column IH]; [done|].
  rewrite fmap_cons, !filter_cons.
  destruct (decide (preprocess_name v = "")) as [Hv|Hv].
  - rewrite decide_True by (cbv beta; by rewrite preprocess_name_normal).
    rewrite !length_cons. by rewrite IH.
  - by rewrite decide_False
      by (cbv beta; by rewrite preprocess_name_normal).
Qed.

Lemma filter_first_letter_fmap (column : list value) :
  length (filter (λ n, first_letter n = "") (preprocess_name <$> column))
  = length (empty_names column).
Proof.
  unfold empty_names. induction column as [|v column IH]; [done|].
  rewrite fmap_cons, !filter_cons.
  destruct (decide (preprocess_name v = "")) as [Hv|Hv].
  - rewrite decide_True by by rewrite Hv.
    rewrite !length_cons. by rewrite IH.
  - by rewrite decide_False by by rewrite first_letter_empty.
Qed.

(** X13. A run of the notebook returns its clusters when at most one value
    of the name column has an empty normal form (a missing value, an empty
    or blank string), and raises [ZeroDivisionError] when two or more
    have. *)
Theorem run_outcome (column : list value) :
  (length (empty_names column) ≤ 1 →
   ∃ clusters, run soundex metaphone levenshtein_distance
                 jaro_winkler_similarity column = Ok clusters)
  ∧ (2 ≤ length (empty_names column) →
     run soundex metaphone levenshtein_distance jaro_winkler_similarity
       column = Raise ZeroDivisionError).
Proof.
  unfold run. split.
  - intros Hlen.
    destruct (all_potential_duplicates_returns (preprocess_name <$> column))
      as [m ->]; [by rewrite filter_blank_fmap|]. by eexists.
  - intros Hlen. rewrite all_potential_duplicates_raises; [done|].
    by rewrite filter_first_letter_fmap.
Qed.

End OrchestratorMore.

(** ** Order of strings *)

Lemma str_le_leb a b : str_le a b ↔ String.leb a b = true.
Proof.
  unfold str_le, String.ltb, String.leb.
  rewrite (String.compare_antisym b a).
  destruct (String.compare a b); simpl; split; congruence.
Qed.

Lemma str_le_refl a : str_le a a.
Proof. apply str_le_leb, Is_true_true. apply (reflexivity (R := String.le)). Qed.

Lemma str_le_trans a b c : str_le a b → str_le b c → str_le a c.
Proof.
  rewrite !str_le_leb, <-!Is_true_true.
  apply (transitivity (R := String.le)).
Qed.

Lemma str_lt_le a b : String.ltb a b = true → str_le a b.
Proof.
  unfold str_le, String.ltb. rewrite (String.compare_antisym b a).
  by destruct (String.compare a b).
Qed.

Lemma insert_by_sorted {A} (key : A → string) (x : A) (l : list A) :
  StronglySorted (λ a b, str_le (key a) (key b)) l →
  StronglySorted (λ a b, str_le (key a) (key b)) (insert_by key x l).
Proof.
  induction 1 as [|y l Hl IH Hy]; simpl.
  - repeat constructor.
  - destruct (String.ltb (key y) (key x)) eqn:Hlt.
    + constructor; [done|]. rewrite insert_by_perm.
      constructor; [by apply str_lt_le|done].
    + constructor; [by constructor|]. constructor; [done|].
      eapply Forall_impl; [exact Hy|]. intros z Hz. simpl in Hz.
      by eapply str_le_trans.
Qed.

Lemma sorted_by_sorted {A} (key : A → string) (l : list A) :
  StronglySorted (λ a b, str_le (key a) (key b)) (sorted_by key l).
Proof.
  unfold sorted_by. induction l as [|x l IH]; simpl; [constructor|].
  by apply insert_by_sorted.
Qed.

(** ** Cluster consolidation, continued *)

Lemma unique_cluster_NoDup key similars : NoDup (unique_cluster key similars).
Proof.
  unfold unique_cluster. rewrite sorted_by_perm. apply NoDup_remove_dups.
Qed.

Lemma consolidate_step_clusters st item :
  (consolidate_step st item).1 = st.1
  ∨ ((item.1 ∉ st.2)
     ∧ (consolidate_step st item).1
       = st.1 ++ [unique_cluster item.1 item.2]).
Proof.
  destruct st as [clusters visited], item as [key similars]. simpl.
  case_decide; [by left|by right].
Qed.

Lemma consolidate_shape m c :
  c ∈ consolidate m →
  ∃ key similars, (key, similars) ∈ m ∧ c = unique_cluster key similars.
Proof.
  unfold consolidate. revert c.
  induction m as [|item m IH] using rev_ind; intros c.
  - by intros ?%elem_of_nil.
  - rewrite consolidate_loop_snoc.
    destruct (consolidate_step_clusters (consolidate_loop m) item)
      as [->|[_ ->]].
    + intros (k & l & Hin & ->)%IH. exists k, l.
      split; [|done]. apply elem_of_app. by left.
    + intros [Hc|Hc]%elem_of_app.
      * apply IH in Hc as (k & l & Hin & ->). exists k, l.
        split; [|done]. apply elem_of_app. by left.
      * apply list_elem_of_singleton in Hc as ->.
        exists item.1, item.2. split; [|done].
        apply elem_of_app. right. destruct item. left.
Qed.

(** X14. Every emitted cluster is the key of the match map that seeded it
    together with the entries of that key, each string once, sorted by
    its lower-cased text; so a cluster is never empty. *)
Theorem emitted_cluster_shape m c :
  c ∈ emitted_clusters m →
  NoDup c
  ∧ StronglySorted (λ a b, str_le (Py.lower a) (Py.lower b)) c
  ∧ ∃ key similars, (key, similars) ∈ m
      ∧ key ∈ c ∧ ∀ e, e ∈ c ↔ e = key ∨ e ∈ similars.
Proof.
  rewrite emitted_clusters_perm.
  intros (key & similars & Hin & ->)%consolidate_shape. split_and!.
  - apply unique_cluster_NoDup.
  - apply sorted_by_sorted.
  - exists key, similars. split_and!; [done| |].
    + apply elem_of_unique_cluster. by left.
    + apply elem_of_unique_cluster.
Qed.

Lemma consolidate_length m : length (consolidate m) ≤ length m.
Proof.
  unfold consolidate. induction m as [|item m IH] using rev_ind; [done|].
  rewrite consolidate_loop_snoc, length_app. simpl.
  destruct (consolidate_step_clusters (consolidate_loop m) item)
    as [->|[_ ->]]; [lia|]. rewrite length_app. simpl. lia.
Qed.

Lemma consolidate_first item m :
  ∃ clusters, consolidate (item :: m) = unique_cluster item.1 item.2 :: clusters.
Proof.
  unfold consolidate. induction m as [|item' m IH] using rev_ind.
  - destruct item as [key similars]. by eexists.
  - rewrite app_comm_cons, consolidate_loop_snoc.
    destruct IH as [clusters IH].
    destruct (consolidate_step_clusters (consolidate_loop (item :: m)) item')
      as [->|[_ ->]]; rewrite IH; by eexists.
Qed.

(** X15. The emitted list holds the clusters that the loop appended,
    reordered so that their first elements do not decrease; there is at
    most one cluster per key of the match map, and at least one as soon
    as the match map has a key. *)
Theorem emitted_clusters_order m :
  emitted_clusters m ≡ₚ consolidate m
  ∧ StronglySorted (λ c1 c2, str_le (default "" (head c1))
                                    (default "" (head c2)))
      (emitted_clusters m)
  ∧ length (emitted_clusters m) ≤ length m
  ∧ (emitted_clusters m = [] ↔ m = []).
Proof.
  split_and!.
  - apply emitted_clusters_perm.
  - apply sorted_by_sorted.
  - rewrite emitted_clusters_perm. apply consolidate_length.
  - split.
    + intros Hnil. destruct m as [|item m]; [done|].
      destruct (consolidate_first item m) as [clusters Hc].
      pose proof (emitted_clusters_perm (item :: m)) as Hp.
      rewrite Hnil, Hc in Hp. by apply Permutation_nil_cons in Hp.
    + by intros ->.
Qed.

Lemma consolidate_loop_cover m :
  (∀ v, v ∈ (consolidate_loop m).2 →
     ∃ c e, c ∈ (consolidate_loop m).1 ∧ e ∈ c ∧ base_name e = v)
  ∧ (∀ k, k ∈ dd_keys m →
       ∃ c e, c ∈ (consolidate_loop m).1 ∧ e ∈ c
         ∧ (e = k ∨ base_name e = k)).
Proof.
  induction m as [|[key similars] m [IHv IHk]] using rev_ind.
  - split; [by intros v ?%not_elem_of_empty|by intros k ?%elem_of_nil].
  - rewrite consolidate_loop_snoc.
    destruct (consolidate_loop m) as [clusters visited]. simpl in *.
    unfold dd_keys. rewrite fmap_app. csimpl.
    case_decide as Hkey; simpl.
    + split; [done|].
      intros k [Hk|Hk]%elem_of_app; [by apply IHk|].
      apply list_elem_of_singleton in Hk as ->.
      destruct (IHv key Hkey) as (c & e & ? & ? & ?). exists c, e. auto.
    + assert (Hold : ∀ (P : string → Prop),
        (∃ c e, c ∈ clusters ∧ e ∈ c ∧ P e) →
        ∃ c e, c ∈ clusters ++ [unique_cluster key similars] ∧ e ∈ c ∧ P e).
      { intros P (c & e & Hc & He & HP). exists c, e.
        split; [apply elem_of_app; by left|done]. }
      assert (Hnew : ∀ e (P : string → Prop),
        e ∈ unique_cluster key similars → P e →
        ∃ c e, c ∈ clusters ++ [unique_cluster key similars] ∧ e ∈ c ∧ P e).
      { intros e P He HP. exists (unique_cluster key similars), e.
        split; [|done]. apply elem_of_app. right. left. }
      split.
      * intros v [Hv|Hv]%elem_of_union.
        -- apply (Hold (λ e, base_name e = v)). by apply IHv.
        -- apply elem_of_list_to_set, list_elem_of_fmap in Hv
             as (e & -> & He).
           by apply (Hnew e (λ e', base_name e' = base_name e)).
      * intros k [Hk|Hk]%elem_of_app.
        -- apply (Hold (λ e, e = k ∨ base_name e = k)). by apply IHk.
        -- apply list_elem_of_singleton in Hk as ->.
           apply (Hnew key (λ e, e = key ∨ base_name e = key)); [|by left].
           apply elem_of_unique_cluster. by left.
Qed.

(** X16. No key of the match map is lost: every key is a member of an
    emitted cluster, or is the base name of a member of one. *)
Theorem emitted_clusters_cover m k :
  k ∈ dd_keys m →
  ∃ c e, c ∈ emitted_clusters m ∧ e ∈ c ∧ (e = k ∨ base_name e = k).
Proof.
  intros Hk. destruct (consolidate_loop_cover m) as [_ Hcover].
  destruct (Hcover k Hk) as (c & e & Hc & He & Hke).
  exists c, e. split; [|done]. by rewrite emitted_clusters_perm.
Qed.

(** ** Records and base names *)

Lemma prefix_sep_cons c d t :
  String.prefix " (" (String c (String d t))
  = if ascii_dec " " c then (if ascii_dec "(" d then true else false)
    else false.
Proof.
  change (String.prefix " (" (String c (String d t)))
    with (if ascii_dec " " c
          then (if ascii_dec "(" d then String.prefix "" t else false)
          else false).
  destruct (ascii_dec " " c); [|done].
  destruct (ascii_dec "(" d); [|done]. by destruct t.
Qed.

Lemma split_head_app name rest :
  Py.split_head " (" name = name →
  Py.split_head " (" (name +:+ " (" +:+ rest) = name.
Proof.
  induction name as [|c name IH].
  { intros _. by destruct rest. }
  cbn [Py.split_head].
  destruct (String.prefix " (" (String c name)) eqn:Hp; [done|].
  intros [= Hname].
  change (String c name +:+ " (" +:+ rest)
    with (String c (name +:+ " (" +:+ rest)).
  cbn [Py.split_head].
  assert (String.prefix " (" (String c (name +:+ " (" +:+ rest)) = false)
    as ->.
  { destruct name as [|d name].
    - change ("" +:+ " (" +:+ rest) with (String " " (String "(" rest)).
      rewrite prefix_sep_cons. by destruct (ascii_dec " " c).
    - change (String d name +:+ " (" +:+ rest)
        with (String d (name +:+ " (" +:+ rest)).
      by rewrite prefix_sep_cons in Hp |- *. }
  by rewrite IH.
Qed.

(** X17. The consolidation recovers the name that the comparator wrote
    into a record: for a name in normal form that holds no " (", the
    base name of the record of that name is the name. *)
Theorem base_name_match_record name score :
  Py.split_head " (" name = name →
  preprocess_name (VStr name) = name →
  base_name (match_record name score) = name.
Proof.
  intros Hsep Hnorm. unfold base_name, match_record.
  by rewrite split_head_app.
Qed.

Lemma base_name_match_record_witness :
  base_name (match_record "jon smith" (95 # 100)) = "jon smith".
Proof. by apply base_name_match_record. Defined.

(** A name that holds " (" is cut at it. *)
Example base_name_cut :
  base_name (match_record "acme (uk)" (95 # 100)) = "acme"
  ∧ base_name "acme (uk)" = "acme".
Proof. done. Qed.

(** ** The cluster table *)

Lemma length_column_names max_cols :
  length (column_names max_cols) = S (max_cols - 1).
Proof. unfold column_names. simpl. by rewrite length_fmap, length_seq. Qed.

Lemma length_pad_row width row :
  length row ≤ width → length (pad_row width row) = width.
Proof.
  intros Hle. unfold pad_row.
  rewrite length_app, length_fmap, length_replicate. lia.
Qed.

Lemma omap_pad_row width row : omap id (pad_row width row) = row.
Proof.
  unfold pad_row. rewrite omap_app.
  assert (omap id (replicate (width - length row) (@None string)) = [])
    as ->.
  { induction (width - length row); [done|]. by csimpl. }
  rewrite app_nil_r. induction row as [|x row IH]; [done|].
  csimpl. by rewrite IH.
Qed.

Lemma frame_width_ge (clusters : list (list string)) c :
  c ∈ clusters → length c ≤ frame_width clusters.
Proof.
  intros Hc. unfold frame_width. apply max_list_elem_of_le.
  apply list_elem_of_fmap. by exists c.
Qed.

Lemma clustered_df_returns (clusters : list (list string)) c0 :
  c0 ∈ clusters → c0 ≠ [] →
  0 < frame_width clusters
  ∧ clustered_df clusters
    = Ok (Frame (column_names (frame_width clusters))
            (pad_row (frame_width clusters) <$> clusters)).
Proof.
  intros Hc0 Hne.
  assert (0 < frame_width clusters) as Hw.
  { pose proof (frame_width_ge clusters c0 Hc0).
    destruct c0; [done|simpl in *; lia]. }
  split; [done|]. unfold clustered_df.
  by rewrite decide_True by (rewrite length_column_names; lia).
Qed.

(** X18. The table of a list of clusters that holds a non-empty cluster
    has as many columns as the longest cluster, labelled name,
    duplicate_1, duplicate_2, ...; every row has that many cells, and the
    cells of row i that are not missing are cluster i, in order. *)
Theorem clustered_df_shape (clusters : list (list string)) c0 :
  c0 ∈ clusters → c0 ≠ [] →
  ∃ t, clustered_df clusters = Ok t
    ∧ length (frame_columns t) = frame_width clusters
    ∧ (∀ j, frame_columns t !! j
            = if decide (j = 0) then Some "name"
              else if decide (j < frame_width clusters)
                   then Some ("duplicate_" +:+ Py.dec (Z.of_nat j))
                   else None)
    ∧ length (frame_rows t) = length clusters
    ∧ ∀ i c, clusters !! i = Some c →
        ∃ row, frame_rows t !! i = Some row
          ∧ length row = frame_width clusters
          ∧ omap id row = c.
Proof.
  intros Hc0 Hne.
  destruct (clustered_df_returns clusters c0 Hc0 Hne) as [Hw ->].
  eexists. split; [done|]. cbn [frame_columns frame_rows]. split_and!.
  - rewrite length_column_names. lia.
  - intros j. unfold column_names. destruct j as [|j]; [done|].
    rewrite decide_False by lia. simpl.
    rewrite list_lookup_fmap.
    destruct (decide (S j < frame_width clusters)) as [Hj|Hj].
    + rewrite lookup_seq_lt by lia. done.
    + rewrite lookup_seq_ge by lia. done.
  - by rewrite length_fmap.
  - intros i c Hi. exists (pad_row (frame_width clusters) c).
    rewrite list_lookup_fmap, Hi. split_and!; [done| |].
    + apply length_pad_row, frame_width_ge.
      by eapply list_elem_of_lookup_2.
    + apply omap_pad_row.
Qed.

Lemma clustered_df_shape_witness :
  ∃ t, clustered_df [["jan"; "jann (0.93)"; "janu (0.81)"];
                     ["mara (0.90)"; "maraa"]] = Ok t
    ∧ frame_columns t = ["name"; "duplicate_1"; "duplicate_2"]
    ∧ frame_rows t = [[Some "jan"; Some "jann (0.93)"; Some "janu (0.81)"];
                      [Some "mara (0.90)"; Some "maraa"; None]]
    ∧ length (frame_columns t) = 3.
Proof.
  destruct (clustered_df_shape
              [["jan"; "jann (0.93)"; "janu (0.81)"];
               ["mara (0.90)"; "maraa"]]
              ["mara (0.90)"; "maraa"]) as (t & Ht & Hlen & _);
    [right; left|done|].
  exists t. vm_compute in Ht. injection Ht as <-.
  split_and!; [vm_compute; reflexivity|done|done|exact Hlen].
Defined.

Lemma emitted_clusters_nonempty m :
  m ≠ [] → ∃ c0, c0 ∈ emitted_clusters m ∧ c0 ≠ [].
Proof.
  destruct m as [|item m]; [done|]. intros _.
  destruct (consolidate_first item m) as [clusters Hc].
  exists (unique_cluster item.1 item.2). split.
  - rewrite emitted_clusters_perm, Hc. left.
  - intros Hnil.
    assert (item.1 ∈ unique_cluster item.1 item.2) as Hin
      by (apply elem_of_unique_cluster; by left).
    rewrite Hnil in Hin. by apply elem_of_nil in Hin.
Qed.

Section NotebookFacts.

Variables soundex metaphone : string → string.
Variable levenshtein_distance : string → string → nat.
Variable jaro_winkler_similarity : string → string → Q.

Local Abbreviation global_map := (all_potential_duplicates soundex
  metaphone levenshtein_distance jaro_winkler_similarity).
Local Abbreviation book := (notebook soundex metaphone
  levenshtein_distance jaro_winkler_similarity).

(** X19. When no pair of names is matched the match map is empty, the
    frame has no column while the label name is assigned to it, and the
    notebook raises [ValueError] at line 343 instead of writing an empty
    table; so it does on an empty name column. With a match, the
    notebook returns a frame with one row per emitted cluster; an exception
    of the comparison stage is raised unchanged. *)
Theorem notebook_outcome (column : list value) :
  (global_map (block_names (preprocess_name <$> column)) = Ok [] →
   book column = Raise ValueError)
  ∧ (∀ m, global_map (block_names (preprocess_name <$> column)) = Ok m →
       m ≠ [] →
       ∃ t, book column = Ok t
         ∧ length (frame_rows t) = length (emitted_clusters m)
         ∧ length (frame_columns t) = frame_width (emitted_clusters m))
  ∧ (∀ e, global_map (block_names (preprocess_name <$> column)) = Raise e →
       book column = Raise e)
  ∧ book [] = Raise ValueError.
Proof.
  unfold notebook, run. split_and!.
  - by intros ->.
  - intros m -> Hm. simpl.
    destruct (emitted_clusters_nonempty m Hm) as (c0 & Hc0 & Hne).
    destruct (clustered_df_returns _ c0 Hc0 Hne) as [Hw ->].
    eexists. split; [done|]. cbn [frame_columns frame_rows].
    rewrite length_fmap, length_column_names. split; [done|lia].
  - by intros e ->.
  - done.
Qed.

End NotebookFacts.

(** ** Instances with the reference provider *)

Lemma process_chunk_threshold_ge_1_witness :
  (1 <= 12 # 10)%Q
  ∧ Ref.process_chunk ["jon"; "john"; "bob"] (12 # 10) = Ok []
  ∧ ([] : list (string * list string)) = [].
Proof.
  assert (Hth : (1 <= 12 # 10)%Q) by done.
  assert (Hrun : Ref.process_chunk ["jon"; "john"; "bob"] (12 # 10) = Ok [])
    by (vm_compute; reflexivity).
  split_and!; [exact Hth|exact Hrun|].
  exact (process_chunk_threshold_ge_1 Ref.soundex Ref.metaphone
           Ref.levenshtein_distance Ref.jaro_winkler_similarity
           _ _ _ Hth Hrun).
Defined.

Lemma process_chunk_threshold_mono_witness :
  Ref.process_chunk ["jon"; "john"; "smith"; "smyth"] (8 # 10)
  = Ok [("john", ["jon (0.86)"]); ("jon", ["john (0.86)"]);
        ("smith", ["smyth (0.89)"]); ("smyth", ["smith (0.89)"])]
  ∧ Ref.process_chunk ["jon"; "john"; "smith"; "smyth"] (88 # 100)
    = Ok [("smith", ["smyth (0.89)"]); ("smyth", ["smith (0.89)"])]
  ∧ ∀ k e,
      dd_entry k e [("smith", ["smyth (0.89)"]);
                    ("smyth", ["smith (0.89)"])] →
      dd_entry k e [("john", ["jon (0.86)"]); ("jon", ["john (0.86)"]);
                    ("smith", ["smyth (0.89)"]);
                    ("smyth", ["smith (0.89)"])].
Proof.
  assert (H1 : Ref.process_chunk ["jon"; "john"; "smith"; "smyth"] (8 # 10)
    = Ok [("john", ["jon (0.86)"]); ("jon", ["john (0.86)"]);
          ("smith", ["smyth (0.89)"]); ("smyth", ["smith (0.89)"])])
    by (vm_compute; reflexivity).
  assert (H2 : Ref.process_chunk ["jon"; "john"; "smith"; "smyth"] (88 # 100)
    = Ok [("smith", ["smyth (0.89)"]); ("smyth", ["smith (0.89)"])])
    by (vm_compute; reflexivity).
  split_and!; [exact H1|exact H2|].
  apply (process_chunk_threshold_mono Ref.soundex Ref.metaphone
           Ref.levenshtein_distance Ref.jaro_winkler_similarity
           ["jon"; "john"; "smith"; "smyth"] (8 # 10) (88 # 100));
    [done|exact H1|exact H2].
Defined.

Lemma merge_result_lookup_witness :
  dd_lookup "a" (merge_result [("a", ["x"])] [("b", ["y"]); ("a", ["z"])])
  = Some ["x"; "z"]
  ∧ dd_keys (merge_result [("a", ["x"])] [("b", ["y"]); ("a", ["z"])])
    = ["a"; "b"].
Proof.
  split; [|done].
  refine (proj1 (merge_result_lookup "a" [("a", ["x"])]
                   [("b", ["y"]); ("a", ["z"])] _ _)).
  - apply (bool_decide_unpack _). vm_compute. exact I.
  - apply (bool_decide_unpack _). vm_compute. exact I.
Defined.

Lemma process_block_single_chunk_witness :
  Ref.process_block_with_threads ["jon"; "john"; "bob"] default_threshold 3
  = Ref.process_chunk ["jon"; "john"; "bob"] default_threshold.
Proof.
  apply (process_block_single_chunk Ref.soundex Ref.metaphone
           Ref.levenshtein_distance Ref.jaro_winkler_similarity); simpl; lia.
Defined.

Lemma process_block_same_chunk_witness :
  Ref.process_block_with_threads ["jon"; "john"; "bob"; "jonh"]
    default_threshold 2
  = Ok [("john", ["jon (0.86)"]); ("jon", ["john (0.86)"])]
  ∧ Ref.process_chunk ["jon"; "john"; "bob"; "jonh"] default_threshold
    = Ok [("john", ["jon (0.86)"]); ("jon", ["john (0.86)"; "jonh (0.87)"]);
          ("jonh", ["jon (0.87)"])]
  ∧ ∃ chunks,
      block_chunks ["jon"; "john"; "bob"; "jonh"] 2 = Ok chunks
      ∧ ∀ k e,
          dd_entry k e [("john", ["jon (0.86)"]); ("jon", ["john (0.86)"])] →
          ∃ chunk other s,
            chunk ∈ chunks ∧ e = match_record other s
            ∧ k ∈ chunk ∧ other ∈ chunk.
Proof.
  assert (Hrun : Ref.process_block_with_threads
                   ["jon"; "john"; "bob"; "jonh"] default_threshold 2
    = Ok [("john", ["jon (0.86)"]); ("jon", ["john (0.86)"])])
    by (vm_compute; reflexivity).
  split_and!; [exact Hrun|vm_compute; reflexivity|].
  exact (process_block_same_chunk Ref.soundex Ref.metaphone
           Ref.levenshtein_distance Ref.jaro_winkler_similarity
           _ _ _ _ Hrun).
Defined.

Lemma all_potential_duplicates_same_block_witness :
  Ref.all_potential_duplicates (block_names ["jon"; "bob"; "john"])
  = Ok [("john", ["jon (0.86)"]); ("jon", ["john (0.86)"])]
  ∧ ∀ k e,
      dd_entry k e [("john", ["jon (0.86)"]); ("jon", ["john (0.86)"])] →
      ∃ other s, e = match_record other s
        ∧ k ∈ ["jon"; "bob"; "john"] ∧ other ∈ ["jon"; "bob"; "john"]
        ∧ first_letter other = first_letter k.
Proof.
  assert (Hrun : Ref.all_potential_duplicates
                   (block_names ["jon"; "bob"; "john"])
    = Ok [("john", ["jon (0.86)"]); ("jon", ["john (0.86)"])])
    by (vm_compute; reflexivity).
  split; [exact Hrun|].
  exact (all_potential_duplicates_same_block Ref.soundex Ref.metaphone
           Ref.levenshtein_distance Ref.jaro_winkler_similarity
           _ _ Hrun).
Defined.

Lemma emitted_cluster_shape_witness :
  NoDup ["jann (0.85)"; "janne"]
  ∧ StronglySorted (λ a b, str_le (Py.lower a) (Py.lower b))
      ["jann (0.85)"; "janne"]
  ∧ ∃ key similars,
      (key, similars) ∈ [("jan", ["jann (0.93)"]);
                         ("jann", ["jan (0.93)"; "janne (0.85)"]);
                         ("janne", ["jann (0.85)"])]
      ∧ key ∈ ["jann (0.85)"; "janne"]
      ∧ ∀ e, e ∈ ["jann (0.85)"; "janne"] ↔ e = key ∨ e ∈ similars.
Proof.
  apply (emitted_cluster_shape
           [("jan", ["jann (0.93)"]);
            ("jann", ["jan (0.93)"; "janne (0.85)"]);
            ("janne", ["jann (0.85)"])]).
  assert (emitted_clusters [("jan", ["jann (0.93)"]);
                            ("jann", ["jan (0.93)"; "janne (0.85)"]);
                            ("janne", ["jann (0.85)"])]
          = [["jan"; "jann (0.93)"]; ["jann (0.85)"; "janne"]]) as ->
    by (vm_compute; reflexivity).
  right. left.
Defined.

Lemma emitted_clusters_cover_witness :
  ∃ c e,
    c ∈ emitted_clusters [("jan", ["jann (0.93)"]);
                          ("jann", ["jan (0.93)"; "janne (0.85)"]);
                          ("janne", ["jann (0.85)"])]
    ∧ e ∈ c ∧ (e = "jann" ∨ base_name e = "jann").
Proof.
  apply (emitted_clusters_cover
           [("jan", ["jann (0.93)"]);
            ("jann", ["jan (0.93)"; "janne (0.85)"]);
            ("janne", ["jann (0.85)"])] "jann").
  right. left.
Defined.

(** ** Seeds of the clusters *)

Lemma base_name_plain n : plain_name n → base_name n = n.
Proof. intros [Hsep Hnorm]. unfold base_name. by rewrite Hsep. Qed.

Lemma base_name_record_plain n s :
  plain_name n → base_name (match_record n s) = n.
Proof.
  intros [Hsep Hnorm]. unfold base_name, match_record.
  by rewrite split_head_app.
Qed.

Lemma elem_of_cluster_of (item : string * list string) e :
  e ∈ cluster_of item ↔ e = item.1 ∨ e ∈ item.2.
Proof. apply elem_of_unique_cluster. Qed.

Lemma dd_item_unique {K V} (k : K) (l1 l2 : list V) (d : list (K * list V)) :
  NoDup (dd_keys d) → (k, l1) ∈ d → (k, l2) ∈ d → l1 = l2.
Proof.
  unfold dd_keys. induction d as [|[k0 l0] d IH]; csimpl.
  - by intros _ ?%elem_of_nil.
  - intros [Hk0 Hd]%NoDup_cons [H1|H1]%elem_of_cons [H2|H2]%elem_of_cons.
    + congruence.
    + injection H1 as -> ->. destruct Hk0.
      apply list_elem_of_fmap. by exists (k0, l2).
    + injection H2 as -> ->. destruct Hk0.
      apply list_elem_of_fmap. by exists (k0, l1).
    + by apply IH.
Qed.

(** The clusters are built, in order, from a sub-list of the items of the
    match map, the seeds; the key of a seed is not the base name of a
    member of the cluster of an earlier seed. *)
Lemma consolidate_loop_seeds m :
  ∃ seeds,
    seeds `sublist_of` m
    ∧ (consolidate_loop m).1 = cluster_of <$> seeds
    ∧ (∀ it e, it ∈ seeds → e ∈ cluster_of it →
         base_name e ∈ (consolidate_loop m).2)
    ∧ ∀ i j it_i it_j,
        i < j → seeds !! i = Some it_i → seeds !! j = Some it_j →
        ∀ e, e ∈ cluster_of it_i → base_name e ≠ it_j.1.
Proof.
  induction m as [|[key similars] m IH] using rev_ind.
  - exists []. split_and!; [done|done|by intros it e ?%elem_of_nil|].
    by intros i j it_i it_j _ ?.
  - rewrite consolidate_loop_snoc.
    destruct IH as (seeds & Hsub & Hcl & Hvis & Hfresh).
    destruct (consolidate_loop m) as [clusters visited]. simpl in *.
    case_decide as Hkey.
    + exists seeds. split_and!; [|done|done|done].
      by apply sublist_inserts_r.
    + exists (seeds ++ [(key, similars)]). simpl. split_and!.
      * by apply sublist_app.
      * by rewrite fmap_app, Hcl.
      * intros it e [Hit|Hit]%elem_of_app He; apply elem_of_union.
        -- left. by eapply Hvis.
        -- apply list_elem_of_singleton in Hit as ->. right.
           apply elem_of_list_to_set, list_elem_of_fmap. by exists e.
      * intros i j it_i it_j Hij Hi Hj.
        destruct (decide (j < length seeds)) as [Hlt|Hge].
        -- rewrite lookup_app_l in Hi by lia.
           rewrite lookup_app_l in Hj by lia.
           exact (Hfresh i j it_i it_j Hij Hi Hj).
        -- rewrite lookup_app_r in Hj by lia.
           apply list_lookup_singleton_Some in Hj as [Hj <-].
           rewrite lookup_app_l in Hi by lia.
           intros e He Heq. simpl in Heq. apply Hkey. rewrite <-Heq.
           eapply Hvis; [|done]. by eapply list_elem_of_lookup_2.
Qed.

(** On a match map with distinct plain keys in which every entry is a
    record with its mirror entry, the key of a seed is the base name of no
    member of the cluster of another seed, earlier or later. *)
Lemma consolidate_seed_unique m :
  NoDup (dd_keys m) →
  (∀ k, k ∈ dd_keys m → plain_name k) →
  (∀ k e, dd_entry k e m →
     ∃ other s, e = match_record other s
       ∧ dd_entry other (match_record k s) m) →
  ∃ seeds,
    seeds `sublist_of` m
    ∧ consolidate m = cluster_of <$> seeds
    ∧ ∀ i j it_i it_j,
        i ≠ j → seeds !! i = Some it_i → seeds !! j = Some it_j →
        ∀ e, e ∈ cluster_of it_j → base_name e ≠ it_i.1.
Proof.
  intros Hnd Hplain Hmirror.
  destruct (consolidate_loop_seeds m) as (seeds & Hsub & Hcl & _ & Hfresh).
  exists seeds. split_and!; [done|done|].
  intros i j [ki li] [kj lj] Hij Hi Hj e He Heq. simpl in *.
  assert ((ki, li) ∈ m) as Hmi.
  { eapply elem_of_sublist; [|exact Hsub]. by eapply list_elem_of_lookup_2. }
  assert ((kj, lj) ∈ m) as Hmj.
  { eapply elem_of_sublist; [|exact Hsub]. by eapply list_elem_of_lookup_2. }
  assert (plain_name ki) as Hpi.
  { apply Hplain, elem_of_dd_keys. by exists li. }
  assert (plain_name kj) as Hpj.
  { apply Hplain, elem_of_dd_keys. by exists lj. }
  assert (ki ≠ kj) as Hne.
  { intros <-. apply Hij.
    assert (NoDup (fst <$> seeds)) as Hnds.
    { eapply sublist_NoDup; [exact Hnd|]. by apply fmap_sublist. }
    apply (NoDup_lookup _ i j ki Hnds); rewrite list_lookup_fmap.
    - by rewrite Hi.
    - by rewrite Hj. }
  apply elem_of_cluster_of in He as [->|He]; simpl in *.
  { rewrite base_name_plain in Heq by done. done. }
  destruct (Hmirror kj e) as (o & s & -> & Hback).
  { by exists lj. }
  assert (plain_name o) as Hpo.
  { apply Hplain, elem_of_dd_keys. destruct Hback as (l & ? & _). by exists l. }
  rewrite base_name_record_plain in Heq by done. subst o.
  destruct Hback as (l & Hl & Hrec).
  rewrite (dd_item_unique ki l li m Hnd Hl Hmi) in Hrec.
  assert (match_record kj s ∈ cluster_of (ki, li)) as Hin.
  { apply elem_of_cluster_of. by right. }
  destruct (decide (i < j)) as [Hlt|Hge].
  - apply (Hfresh i j (ki, li) (kj, lj) Hlt Hi Hj _ Hin).
    by apply base_name_record_plain.
  - assert (j < i) as Hlt by lia.
    apply (Hfresh j i (kj, lj) (ki, li) Hlt Hj Hi (match_record ki s)).
    + apply elem_of_cluster_of. by right.
    + by apply base_name_record_plain.
Qed.

Section SeedFacts.

Variables soundex metaphone : string → string.
Variable levenshtein_distance : string → string → nat.
Variable jaro_winkler_similarity : string → string → Q.

Local Abbreviation chunk_map := (process_chunk soundex metaphone
  levenshtein_distance jaro_winkler_similarity).
Local Abbreviation block_map := (process_block_with_threads soundex
  metaphone levenshtein_distance jaro_winkler_similarity).
Local Abbreviation global_map := (all_potential_duplicates soundex
  metaphone levenshtein_distance jaro_winkler_similarity).

Lemma process_chunk_mirror chunk threshold pd :
  chunk_map chunk threshold = Ok pd →
  ∀ k e, dd_entry k e pd →
    ∃ other s, e = match_record other s
      ∧ dd_entry other (match_record k s) pd.
Proof.
  intros (seen & Hrun)%process_chunk_Ok.
  pose proof (process_chunk_loop_inv _ _ _ _ _ _ _ Hrun)
    as (_ & _ & Hfrom & Hto).
  simpl in *. intros k e Hke.
  destruct (Hfrom k e Hke) as (n1 & n2 & s & Hin & Hsc & Hrec).
  destruct (Hto n1 n2 s Hin Hsc) as [H1 H2].
  destruct Hrec as [[-> ->]|[-> ->]]; [by exists n2, s|by exists n1, s].
Qed.

Lemma process_block_mirror names threshold chunk_size pd :
  block_map names threshold chunk_size = Ok pd →
  NoDup (dd_keys pd)
  ∧ ∀ k e, dd_entry k e pd →
      ∃ other s, e = match_record other s
        ∧ dd_entry other (match_record k s) pd.
Proof.
  unfold process_block_with_threads. intros Hrun.
  apply result_bind_Ok in Hrun as (chunks & Hchunks & Hrun).
  apply result_bind_Ok in Hrun as (results & Hres & [= <-]).
  split; [apply merge_all_NoDup; constructor|].
  intros k e [?%dd_entry_nil|(r & Hr & Hke)]%dd_entry_merge_all; [done|].
  destruct (mapM_elem _ _ _ _ Hres Hr) as (chunk & _ & Hchunk).
  destruct (process_chunk_mirror _ _ _ Hchunk k e Hke) as (o & s & -> & Hb).
  exists o, s. split; [done|]. apply dd_entry_merge_all. right. by exists r.
Qed.

Lemma all_potential_duplicates_mirror blocks m :
  global_map blocks = Ok m →
  NoDup (dd_keys m)
  ∧ ∀ k e, dd_entry k e m →
      ∃ other s, e = match_record other s
        ∧ dd_entry other (match_record k s) m.
Proof.
  unfold all_potential_duplicates. intros Hrun.
  apply result_bind_Ok in Hrun as (results & Hres & [= <-]).
  split; [apply merge_all_NoDup; constructor|].
  intros k e [?%dd_entry_nil|(r & Hr & Hke)]%dd_entry_merge_all; [done|].
  destruct (mapM_elem _ _ _ _ Hres Hr) as (names & _ & Hblock).
  destruct (process_block_mirror _ _ _ _ Hblock) as [_ Hmirror].
  destruct (Hmirror k e Hke) as (o & s & -> & Hb).
  exists o, s. split; [done|]. apply dd_entry_merge_all. right. by exists r.
Qed.

Lemma all_potential_duplicates_keys names m k :
  global_map (block_names names) = Ok m → k ∈ dd_keys m → k ∈ names.
Proof.
  intros Hrun (l & Hin)%elem_of_dd_keys.
  apply all_potential_duplicates_records in Hrun as [Hne Hrec].
  pose proof (proj1 (Forall_forall _ _) Hne (k, l) Hin) as Hl. simpl in Hl.
  destruct l as [|e l]; [done|].
  destruct (Hrec k e) as (block & Hblock & o & s & _ & Hk & _).
  { exists (e :: l). split; [done|left]. }
  by eapply block_names_subseteq.
Qed.

(** C1, as amended. In a run on a column none of whose normalized names
    holds " (", every emitted cluster is made of a key of the match map,
    its seed, and of the records of that key, and the seed is in that
    cluster only: no other emitted cluster, before or after it in the
    list, has a member that is the seed, that is a record of the seed, or
    whose base name is the seed. *)
Theorem emitted_seed_in_one_cluster (column : list value) m :
  (∀ v, v ∈ column →
     Py.split_head " (" (preprocess_name v) = preprocess_name v) →
  all_potential_duplicates soundex metaphone levenshtein_distance
    jaro_winkler_similarity (block_names (preprocess_name <$> column))
  = Ok m →
  ∀ i j ci cj,
    i ≠ j →
    emitted_clusters m !! i = Some ci → emitted_clusters m !! j = Some cj →
    ∃ key similars,
      (key, similars) ∈ m
      ∧ key ∈ ci
      ∧ (∀ e, e ∈ ci ↔ e = key ∨ e ∈ similars)
      ∧ ∀ e, e ∈ cj →
          e ≠ key ∧ base_name e ≠ key ∧ ∀ s, e ≠ match_record key s.
Proof.
  intros Hcol Hrun i j ci cj Hij Hi Hj.
  assert (∀ k, k ∈ dd_keys m → plain_name k) as Hplain.
  { intros k Hk.
    apply (all_potential_duplicates_keys _ _ _ Hrun) in Hk.
    apply list_elem_of_fmap in Hk as (v & -> & Hv).
    split; [by apply Hcol|apply preprocess_name_normal]. }
  destruct (all_potential_duplicates_mirror _ _ Hrun) as [Hnd Hmirror].
  destruct (consolidate_seed_unique m Hnd Hplain Hmirror)
    as (seeds & Hsub & Hcl & Hother).
  destruct (proj1 (Permutation_inj _ _) (emitted_clusters_perm m))
    as (_ & f & Hf & Hlook).
  rewrite Hlook, Hcl, list_lookup_fmap in Hi, Hj.
  destruct (seeds !! f i) as [[ki li]|] eqn:Hsi; [|done].
  destruct (seeds !! f j) as [[kj lj]|] eqn:Hsj; [|done].
  injection Hi as <-. injection Hj as <-.
  assert (f i ≠ f j) as Hfij by (intros Heq; by apply Hf in Heq).
  exists ki, li. split_and!.
  - eapply elem_of_sublist; [|exact Hsub]. by eapply list_elem_of_lookup_2.
  - apply elem_of_cluster_of. by left.
  - intros e. apply elem_of_cluster_of.
  - intros e He.
    pose proof (Hother (f i) (f j) (ki, li) (kj, lj) Hfij Hsi Hsj e He)
      as Hbase.
    assert (plain_name ki) as Hpi.
    { apply Hplain, elem_of_dd_keys. exists li.
      eapply elem_of_sublist; [|exact Hsub].
      by eapply list_elem_of_lookup_2. }
    split_and!; [|done|].
    + intros ->. apply Hbase. simpl. by apply base_name_plain.
    + intros s ->. apply Hbase. simpl. by apply base_name_record_plain.
Qed.

End SeedFacts.

Lemma emitted_seed_in_one_cluster_witness :
  Ref.all_potential_duplicates
    (block_names (preprocess_name <$> [VStr "Mar"; VStr "mara "; VStr "maraa"]))
  = Ok [("mar", ["mara (0.87)"]); ("mara", ["mar (0.87)"; "maraa (0.90)"]);
        ("maraa", ["mara (0.90)"])]
  ∧ emitted_clusters
      [("mar", ["mara (0.87)"]); ("mara", ["mar (0.87)"; "maraa (0.90)"]);
       ("maraa", ["mara (0.90)"])]
    = [["mar"; "mara (0.87)"]; ["mara (0.90)"; "maraa"]]
  ∧ ∃ key similars,
      (key, similars) ∈ [("mar", ["mara (0.87)"]);
                         ("mara", ["mar (0.87)"; "maraa (0.90)"]);
                         ("maraa", ["mara (0.90)"])]
      ∧ key ∈ ["mara (0.90)"; "maraa"]
      ∧ (∀ e, e ∈ ["mara (0.90)"; "maraa"] ↔ e = key ∨ e ∈ similars)
      ∧ ∀ e, e ∈ ["mar"; "mara (0.87)"] →
          e ≠ key ∧ base_name e ≠ key ∧ ∀ s, e ≠ match_record key s.
Proof.
  assert (Hrun : Ref.all_potential_duplicates
    (block_names (preprocess_name <$> [VStr "Mar"; VStr "mara "; VStr "maraa"]))
    = Ok [("mar", ["mara (0.87)"]); ("mara", ["mar (0.87)"; "maraa (0.90)"]);
          ("maraa", ["mara (0.90)"])]) by (vm_compute; reflexivity).
  assert (Hem : emitted_clusters
      [("mar", ["mara (0.87)"]); ("mara", ["mar (0.87)"; "maraa (0.90)"]);
       ("maraa", ["mara (0.90)"])]
    = [["mar"; "mara (0.87)"]; ["mara (0.90)"; "maraa"]])
    by (vm_compute; reflexivity).
  assert (Hcol : ∀ v, v ∈ [VStr "Mar"; VStr "mara "; VStr "maraa"] →
    Py.split_head " (" (preprocess_name v) = preprocess_name v).
  { apply Forall_forall.
    repeat (apply Forall_cons_2; [vm_compute; reflexivity|]).
    apply Forall_nil_2. }
  split_and!; [exact Hrun|exact Hem|].
  apply (emitted_seed_in_one_cluster Ref.soundex Ref.metaphone
           Ref.levenshtein_distance Ref.jaro_winkler_similarity
           [VStr "Mar"; VStr "mara "; VStr "maraa"] _ Hcol
           Hrun 1 0); [lia|rewrite Hem; reflexivity..].
Defined.

(** The names of the amended C1 are those without " (": a name that holds
    it is cut there when its record is read back, so it is not marked
    visited under its own text, and it seeds a cluster after its record
    was put into an earlier one. *)
Example consolidate_cut_name_seeds_again :
  emitted_clusters [("acme (uk)", ["acmee (uk) (0.90)"]);
                    ("acmee (uk)", ["acme (uk) (0.90)"])]
  = [["acme (uk)"; match_record "acmee (uk)" (90#100)%Q];
     [match_record "acme (uk)" (90#100)%Q; "acmee (uk)"]]
  ∧ base_name (match_record "acmee (uk)" (90#100)%Q) = "acmee"
  ∧ Ref.run [VStr "acme (uk)"; VStr "acmee (uk)"]
    = Ok [["acme (uk)"; match_record "acmee (uk)" (95#100)%Q];
          [match_record "acme (uk)" (95#100)%Q; "acmee (uk)"]].
Proof. split_and!; vm_compute; reflexivity. Qed.
